(** * jack_visualiser: the audio-to-weights pipeline

    A shallow embedding of [jack_visualiser.py]: the capture buffer filled by
    the JACK [process] callback, the frame extraction at the head of
    [generate_periodogram_from_audio], the bin aggregation built on
    [aggressive_array_split], and the weighted, L2-normalised combination of
    the seed noise vectors in [generate_images].

    Conventions.
    - A [collections.deque] is a list whose head is the deque's left end.
    - A Python exception is a value of [exn]; a computation that may raise
      returns a [result].
    - numpy arrays of rank 1 are lists, arrays of rank 2 are lists of rows.
    - Array elements are taken from a [Scalar] structure.  Its [float]
      instance is IEEE-754 binary64, the dtype numpy uses here; its [R]
      instance is exact real arithmetic, the idealisation under which the
      algebraic facts about sums and norms are stated. *)

From Stdlib Require Import ZArith List Lia Bool.
From Stdlib Require Import Strings.Byte.
From Stdlib Require Import Floats Reals Lra.
From Stdlib Require Strings.String Strings.Ascii.
Import ListNotations.

(** ** Exceptions *)

Inductive exn : Type :=
| IndexError          (* pop from an empty deque *)
| StructError         (* struct.unpack on a buffer of the wrong size *)
| ZeroDivisionError
| ValueError          (* numpy shape mismatch *)
| AxisError           (* numpy axis out of bounds *)
| AssertionError.

Inductive result (A : Type) : Type :=
| Ok (a : A)
| Raise (e : exn).

Arguments Ok {A} a.
Arguments Raise {A} e.

Definition bind {A B : Type} (r : result A) (k : A -> result B) : result B :=
  match r with
  | Ok a => k a
  | Raise e => Raise e
  end.

Declare Scope py_scope.
Delimit Scope py_scope with py.
Notation "x <- e ;; k" := (bind e (fun x => k))
  (at level 61, e at next level, right associativity) : py_scope.
Notation "' p <- e ;; k" := (bind e (fun p => k))
  (at level 61, p pattern, e at next level, right associativity) : py_scope.
Local Open Scope py_scope.

(** ** collections.deque *)

Section Deque.
Variable T : Type.

(** The head of the list is the left end of the deque. *)
Definition deque : Type := list T.

Definition appendleft (x : T) (d : deque) : deque := x :: d.

(** [deque.pop()]: remove and return the rightmost element. *)
Fixpoint pop (d : deque) : result (T * deque) :=
  match d with
  | [] => Raise IndexError
  | x :: d' =>
      match d' with
      | [] => Ok (x, [])
      | _ :: _ =>
          '(y, r) <- pop d' ;; Ok (y, x :: r)
      end
  end.

(** [[audio_buffer.pop() for _ in range(n)]], threading the buffer. *)
Fixpoint pop_frames (n : nat) (d : deque) : result (list T * deque) :=
  match n with
  | O => Ok ([], d)
  | S k =>
      '(x, d1) <- pop d ;;
      '(xs, d2) <- pop_frames k d1 ;;
      Ok (x :: xs, d2)
  end.

(** One atomic operation on the shared deque: the callback's
    [appendleft] or the consumer's [pop]. *)
Inductive event : Type :=
| Appendleft (x : T)
| Pop.

(** Run an interleaving of producer and consumer operations; the second
    component collects what the consumer has popped, in the order popped. *)
Fixpoint run (tr : list event) (d : deque) (popped : list T)
  : result (deque * list T) :=
  match tr with
  | [] => Ok (d, popped)
  | Appendleft x :: tr' => run tr' (appendleft x d) popped
  | Pop :: tr' =>
      '(y, d') <- pop d ;; run tr' d' (popped ++ [y])
  end.

(** The elements the producer delivered, in arrival order. *)
Fixpoint appended (tr : list event) : list T :=
  match tr with
  | [] => []
  | Appendleft x :: tr' => x :: appended tr'
  | Pop :: tr' => appended tr'
  end.
End Deque.

Arguments appendleft {T} x d.
Arguments pop {T} d.
Arguments pop_frames {T} n d.
Arguments Appendleft {T} x.
Arguments Pop {T}.
Arguments run {T} tr d popped.
Arguments appended {T} tr.

(** ** The JACK process callback *)

Definition sample_frame : Type := (Z * Z)%type.

(** One little-endian two's-complement 32-bit integer ([struct] code [l]
    with the [<] prefix). *)
Definition int32_of_le (b0 b1 b2 b3 : byte) : Z :=
  let u := (Z.of_N (Byte.to_N b0)
            + 2 ^ 8 * Z.of_N (Byte.to_N b1)
            + 2 ^ 16 * Z.of_N (Byte.to_N b2)
            + 2 ^ 24 * Z.of_N (Byte.to_N b3))%Z in
  if (u <? 2 ^ 31)%Z then u else (u - 2 ^ 32)%Z.

Fixpoint unpack_ints (int_count : nat) (bs : list byte) : list Z :=
  match int_count, bs with
  | S n, b0 :: b1 :: b2 :: b3 :: rest =>
      int32_of_le b0 b1 b2 b3 :: unpack_ints n rest
  | _, _ => []
  end.

(** [struct.unpack(f'<{int_count}l', byte_string)]: the buffer must hold
    exactly [4 * int_count] bytes. *)
Definition unpack_bytes (byte_string : list byte) (int_count : nat)
  : result (list Z) :=
  if length byte_string =? 4 * int_count
  then Ok (unpack_ints int_count byte_string)
  else Raise StructError.

(** The loop [for sample_one, sample_two in zip(...): raw_audio.appendleft(...)]. *)
Definition appendleft_all (pairs : list sample_frame) (raw_audio : deque sample_frame)
  : deque sample_frame :=
  fold_left (fun d p => appendleft p d) pairs raw_audio.

Definition process (raw_audio : deque sample_frame)
    (in_1 in_2 : list byte) (frame_count : nat) : result (deque sample_frame) :=
  buffer_one <- unpack_bytes in_1 frame_count ;;
  buffer_two <- unpack_bytes in_2 frame_count ;;
  Ok (appendleft_all (combine buffer_one buffer_two) raw_audio).

(** ** Frame extraction, lines 49-54 of [generate_periodogram_from_audio] *)

(** numpy holds the unpacked Python integers as int64 (its default integer
    type where JACK runs) and adds them with wrap-around. *)
Definition wrap64 (z : Z) : Z :=
  ((z + 2 ^ 63) mod 2 ^ 64 - 2 ^ 63)%Z.

(** [np.sum(audio, axis=1)] on the [(n, 2)] integer array. *)
Definition audio_mono (audio : list sample_frame) : list Z :=
  map (fun p => wrap64 (fst p + snd p)) audio.

(** One pass through the [while True] loop either sleeps and retries or goes
    on with the frame. *)
Inductive poll (A : Type) : Type :=
| Starved                  (* time.sleep(0.001); continue *)
| Ready (r : result A).

Arguments Starved {A}.
Arguments Ready {A} r.

(** [samples_per_frame] is a count; a negative option value would behave as
    0, [range] being empty then.  [np.sum(audio, axis=1)] needs a rank-2
    array: with no sample popped, [np.array([])] has rank 1 and numpy
    raises. *)
Definition extract (audio_buffer : deque sample_frame) (samples_per_frame : nat)
  : poll (list Z * deque sample_frame) :=
  if length audio_buffer <? samples_per_frame then Starved
  else Ready (
    '(audio, rest) <- pop_frames samples_per_frame audio_buffer ;;
    match audio with
    | [] => Raise AxisError
    | _ :: _ => Ok (audio_mono audio, rest)
    end).

(** The values [unpack_bytes] can produce. *)
Definition int32 (z : Z) : Prop := (- 2 ^ 31 <= z < 2 ^ 31)%Z.

Definition int32_frame (p : sample_frame) : Prop :=
  int32 (fst p) /\ int32 (snd p).

(** ** Array elements *)

(** The arithmetic the pipeline needs from the element type of an array. *)
Class Scalar (A : Type) : Type := {
  sc_zero : A;
  sc_add : A -> A -> A;
  sc_mul : A -> A -> A;
  sc_div : A -> A -> A;
  sc_sqrt : A -> A
}.

(** numpy's float64: IEEE-754 binary64, round to nearest even.  Division by
    zero and invalid operations return an infinity or a NaN; they raise
    nothing. *)
#[export] Instance float64 : Scalar float := {|
  sc_zero := 0%float;
  sc_add := PrimFloat.add;
  sc_mul := PrimFloat.mul;
  sc_div := PrimFloat.div;
  sc_sqrt := PrimFloat.sqrt
|}.

(** Exact real arithmetic. *)
#[export] Instance real : Scalar R := {|
  sc_zero := 0%R;
  sc_add := Rplus;
  sc_mul := Rmult;
  sc_div := Rdiv;
  sc_sqrt := R_sqrt.sqrt
|}.

(** ** The numpy operations the pipeline calls *)

Section Numpy.
Context {A : Type} {SA : Scalar A}.

(** Elementwise binary operation on two arrays of the same shape. *)
Definition map2 (f : A -> A -> A) (a b : list A) : list A :=
  map (fun p => f (fst p) (snd p)) (combine a b).

(** [np.sum] of a rank-1 array.  The order in which numpy associates the
    additions is an implementation matter; left to right from zero is
    taken. *)
Definition np_sum (a : list A) : A := fold_left sc_add a sc_zero.

(** [a[st:en]] *)
Definition slice (st en : nat) (a : list A) : list A :=
  firstn (en - st) (skipn st a).

(** The sub-arrays [array_split] cuts when the division is exact: section
    [i] is [ary[i*each : (i+1)*each]]. *)
Definition groups_of (each parts : nat) (ary : list A) : list (list A) :=
  map (fun i => slice (i * each) ((i + 1) * each) ary) (seq 0 parts).

(** [np.split(ary, sections)] with an integer [sections]: the division
    must be exact. *)
Definition np_split (ary : list A) (sections : nat) : result (list (list A)) :=
  match sections with
  | O => Raise ZeroDivisionError
  | S _ =>
      if length ary mod sections =? 0
      then Ok (groups_of (length ary / sections) sections ary)
      else Raise ValueError
  end.

Definition aggressive_array_split (array : list A) (parts : nat)
  : result (list (list A)) :=
  match parts with
  | O => Raise ZeroDivisionError
  | S _ =>
      let end_index := length array - (length array mod parts) in
      np_split (firstn end_index array) parts
  end.

Definition ncols (rows : list (list A)) : nat :=
  match rows with
  | [] => 0
  | r :: _ => length r
  end.

(** The rows form a rank-2 array. *)
Definition rectangular (rows : list (list A)) : bool :=
  forallb (fun r => length r =? ncols rows) rows.

(** [np.sum(rows, axis=1)] on a list of rank-1 arrays: the list is first
    made a rank-2 array. *)
Definition np_sum_axis1 (rows : list (list A)) : result (list A) :=
  match rows with
  | [] => Raise AxisError
  | _ :: _ =>
      if rectangular rows then Ok (map np_sum rows) else Raise ValueError
  end.

(** [np.sum(rows, axis=0)] on a rank-2 array: the rows are added up
    elementwise. *)
Definition np_sum_axis0 (rows : list (list A)) : list A :=
  fold_left (map2 sc_add) rows (repeat sc_zero (ncols rows)).

(** [np.linalg.norm(x, ord=2)] on a rank-1 real array: [sqrt(x.dot(x))]. *)
Definition np_linalg_norm (x : list A) : A :=
  sc_sqrt (np_sum (map2 sc_mul x x)).

(** ** Bin aggregation, lines 59-63 of [generate_periodogram_from_audio] *)

Definition aggregate (periodogram : list A) (bin_count : nat)
  : result (list A) :=
  periodogram_split <- aggressive_array_split periodogram bin_count ;;
  periodogram_summed <- np_sum_axis1 periodogram_split ;;
  if length periodogram_summed =? bin_count
  then Ok periodogram_summed
  else Raise AssertionError.

(** [scipy.signal.welch] is not part of this repository: it is a parameter
    of the cycle. *)
Variable signal_welch : list Z -> Z -> nat -> result (list A).

Definition welch_periodogram (samples : list Z) (sample_rate : Z)
    (bin_count : nat) : result (list A) :=
  match bin_count with
  | O => Raise ZeroDivisionError
  | S _ => signal_welch samples sample_rate (length samples / bin_count)
  end.

(** One pass through the loop of [generate_periodogram_from_audio]: the
    weights yielded and the buffer left behind. *)
Definition periodogram_cycle (audio_buffer : deque sample_frame)
    (samples_per_frame : nat) (sample_rate : Z) (bin_count : nat)
  : poll (list A * deque sample_frame) :=
  match extract audio_buffer samples_per_frame with
  | Starved => Starved
  | Ready r =>
      Ready (
        '(mono, rest) <- r ;;
        periodogram <- welch_periodogram mono sample_rate bin_count ;;
        periodogram_summed <- aggregate periodogram bin_count ;;
        Ok (periodogram_summed, rest))
  end.

(** ** The latent direction, lines 83-85 of [generate_images] *)

(** [weights.reshape(len(all_input_noise), 1) * all_input_noise] *)
Definition weighted_noise (weights : list A) (all_input_noise : list (list A))
  : result (list (list A)) :=
  if length weights =? length all_input_noise
  then Ok (map (fun p => map (sc_mul (fst p)) (snd p))
               (combine weights all_input_noise))
  else Raise ValueError.

(** [np.sum(weighted_noise, axis=0)] *)
Definition weighted_sum (weights : list A) (all_input_noise : list (list A))
  : result (list A) :=
  wn <- weighted_noise weights all_input_noise ;;
  Ok (np_sum_axis0 wn).

(** [weighted_sum / np.linalg.norm(weighted_sum, ord=2, keepdims=True)]:
    the specification's [combine]. *)
Definition normalised_noise (weights : list A) (all_input_noise : list (list A))
  : result (list A) :=
  ws <- weighted_sum weights all_input_noise ;;
  let norm := np_linalg_norm ws in
  Ok (map (fun x => sc_div x norm) ws).
End Numpy.

(** ** The specification's wording of the direction

    "Scale each noise vector by its corresponding weight, sum across all
    seeds elementwise, then divide by the Euclidean (L2) norm of the sum",
    written over the reals with sums of their own, to be compared with
    [weighted_sum] and [np_linalg_norm]. *)

Local Open Scope R_scope.

Definition sigma (l : list R) : R := fold_right Rplus 0 l.

(** Component [j] of the sum over the seeds of weight times noise vector. *)
Definition blend_at (weights : list R) (noise : list (list R)) (j : nat) : R :=
  sigma (map (fun p => fst p * nth j (snd p) 0) (combine weights noise)).

(** The Euclidean norm. *)
Definition l2_norm (v : list R) : R :=
  sqrt (sigma (map (fun x => x * x) v)).

Local Close Scope R_scope.

(** ** Classes of binary64 values *)

Definition sf_zero_or_nan (s : spec_float) : bool :=
  match s with
  | S754_zero _ | S754_nan => true
  | _ => false
  end.

Definition zero_or_nan (x : float) : bool := sf_zero_or_nan (Prim2SF x).

(** ** The consumer's side of a run *)

Section Consumer.
Context {T : Type}.

(** How many [pop]s a run holds. *)
Fixpoint pops (tr : list (event T)) : nat :=
  match tr with
  | [] => 0
  | Appendleft _ :: tr' => pops tr'
  | Pop :: tr' => S (pops tr')
  end.
End Consumer.

(** ** The seed list, line 107 of [visualise] *)

Section Seeds.
(** [int(seed.strip())] is Python's own; it is a parameter. *)
Variable int_strip : String.string -> result Z.

(** The separator, code point 44. *)
Definition comma : Ascii.ascii := Eval cbv in Ascii.ascii_of_nat 44.

(** [seeds.split(',')]: one field more than there are commas. *)
Fixpoint split_comma (s : String.string) : list String.string :=
  match s with
  | String.EmptyString => [String.EmptyString]
  | String.String c rest =>
      if Ascii.eqb c comma then String.EmptyString :: split_comma rest
      else
        match split_comma rest with
        | [] => [String.String c String.EmptyString]
        | field :: fields => String.String c field :: fields
        end
  end.

(** The truth value of a [str]. *)
Definition nonempty (s : String.string) : bool :=
  match s with
  | String.EmptyString => false
  | String.String _ _ => true
  end.

(** The comprehension converts the fields from left to right; the first
    field Python cannot read as an integer raises. *)
Fixpoint int_all (fields : list String.string) : result (list Z) :=
  match fields with
  | [] => Ok []
  | field :: fields' =>
      seed <- int_strip field ;;
      seeds <- int_all fields' ;;
      Ok (seed :: seeds)
  end.

(** [[int(seed.strip()) for seed in seeds.split(',') if seed]] *)
Definition parse_seeds (seeds : String.string) : result (list Z) :=
  int_all (filter nonempty (split_comma seeds)).
End Seeds.

(** * Properties of the capture buffer *)

Section DequeFacts.
Context {T : Type}.
Implicit Types (d : deque T) (x : T).

Lemma pop_snoc d x : pop (d ++ [x]) = Ok (x, d).
Proof.
  induction d as [|a d IH]; simpl; [reflexivity|].
  rewrite IH. destruct d; reflexivity.
Qed.

Lemma pop_nil : pop (@nil T) = Raise IndexError.
Proof. reflexivity. Qed.

(** The element popped is the last of the list, and the rest is untouched. *)
Lemma pop_inv d x d' : pop d = Ok (x, d') -> d = d' ++ [x].
Proof.
  induction d as [|a l _] using rev_ind.
  - discriminate 1.
  - rewrite pop_snoc. intros [= <- <-]. reflexivity.
Qed.

Lemma pop_frames_rev d (xs : list T) :
  pop_frames (length xs) (d ++ rev xs) = Ok (xs, d).
Proof.
  revert d. induction xs as [|x xs IH]; intros d; simpl.
  - now rewrite app_nil_r.
  - rewrite app_assoc, pop_snoc. simpl. rewrite IH. reflexivity.
Qed.

Lemma pop_frames_inv n d xs d' :
  pop_frames n d = Ok (xs, d') -> length xs = n /\ d = d' ++ rev xs.
Proof.
  revert d xs d'. induction n as [|n IH]; intros d xs d'; simpl.
  - intros [= <- <-]. now rewrite app_nil_r.
  - destruct (pop d) as [[x d1]|] eqn:Hp; simpl; [|discriminate].
    destruct (pop_frames n d1) as [[ys d2]|] eqn:Hf; simpl; [|discriminate].
    intros [= <- <-]. apply pop_inv in Hp. apply IH in Hf as [Hl ->].
    split; simpl; [now rewrite Hl|]. subst d. now rewrite app_assoc.
Qed.

(** With enough elements buffered the pops cannot fail. *)
Lemma pop_frames_enough n d :
  n <= length d ->
  pop_frames n d =
    Ok (rev (skipn (length d - n) d), firstn (length d - n) d).
Proof.
  intros Hn.
  rewrite <- (firstn_skipn (length d - n) d) at 1.
  rewrite <- (rev_involutive (skipn (length d - n) d)) at 1.
  replace n with (length (rev (skipn (length d - n) d))) at 1.
  - apply pop_frames_rev.
  - rewrite length_rev, length_skipn. lia.
Qed.

Lemma run_app tr1 tr2 d popped :
  run (tr1 ++ tr2) d popped =
    ('(d', popped') <- run tr1 d popped ;; run tr2 d' popped').
Proof.
  revert d popped. induction tr1 as [|[x|] tr1 IH]; intros d popped; simpl.
  - reflexivity.
  - apply IH.
  - destruct (pop d) as [[y d']|]; simpl; [apply IH | reflexivity].
Qed.

(** The invariant of the shared buffer: what arrived so far is what was
    popped so far followed by the buffer read from right to left. *)
Lemma run_invariant tr d popped d' popped' :
  run tr d popped = Ok (d', popped') ->
  popped ++ rev d ++ appended tr = popped' ++ rev d'.
Proof.
  revert d popped. induction tr as [|[x|] tr IH]; intros d popped; simpl.
  - intros [= <- <-]. now rewrite app_nil_r.
  - intros H. apply IH in H. rewrite <- H. unfold appendleft. simpl.
    now rewrite <- !app_assoc.
  - destruct (pop d) as [[y d1]|] eqn:Hp; simpl; [|discriminate].
    intros H. apply IH in H. rewrite <- H.
    apply pop_inv in Hp. subst d. rewrite rev_app_distr. simpl.
    now rewrite <- !app_assoc.
Qed.

Lemma appended_app (tr1 tr2 : list (event T)) :
  appended (tr1 ++ tr2) = appended tr1 ++ appended tr2.
Proof.
  induction tr1 as [|[x|] tr1 IH]; simpl; [reflexivity | now rewrite IH | exact IH].
Qed.

Lemma appended_map (xs : list T) : appended (map Appendleft xs) = xs.
Proof.
  induction xs as [|x xs IH]; simpl; [reflexivity | now rewrite IH].
Qed.
End DequeFacts.

(** * The process callback *)

Lemma appendleft_all_rev (pairs : list sample_frame) (d : deque sample_frame) :
  appendleft_all pairs d = rev pairs ++ d.
Proof.
  unfold appendleft_all. revert d.
  induction pairs as [|p pairs IH]; intros d; simpl; [reflexivity|].
  rewrite IH. unfold appendleft. now rewrite <- app_assoc.
Qed.

(** The callback is a run of [appendleft] operations, one per zipped pair,
    in the order of the two port buffers. *)
Lemma process_run raw_audio in_1 in_2 frame_count raw_audio' popped :
  process raw_audio in_1 in_2 frame_count = Ok raw_audio' ->
  exists buffer_one buffer_two,
    unpack_bytes in_1 frame_count = Ok buffer_one /\
    unpack_bytes in_2 frame_count = Ok buffer_two /\
    run (map Appendleft (combine buffer_one buffer_two)) raw_audio popped
      = Ok (raw_audio', popped).
Proof.
  unfold process.
  destruct (unpack_bytes in_1 frame_count) as [b1|]; simpl; [|discriminate].
  destruct (unpack_bytes in_2 frame_count) as [b2|]; simpl; [|discriminate].
  intros [= <-]. exists b1, b2. repeat split.
  unfold appendleft_all. generalize (combine b1 b2) as pairs. intros pairs.
  revert raw_audio. induction pairs as [|p pairs IH]; intros d; simpl.
  - reflexivity.
  - apply IH.
Qed.

Lemma int32_of_le_range b0 b1 b2 b3 : int32 (int32_of_le b0 b1 b2 b3).
Proof.
  unfold int32, int32_of_le.
  pose proof (Byte.to_N_bounded b0). pose proof (Byte.to_N_bounded b1).
  pose proof (Byte.to_N_bounded b2). pose proof (Byte.to_N_bounded b3).
  change (2 ^ 8)%Z with 256%Z. change (2 ^ 16)%Z with 65536%Z.
  change (2 ^ 24)%Z with 16777216%Z. change (2 ^ 31)%Z with 2147483648%Z.
  change (2 ^ 32)%Z with 4294967296%Z.
  destruct (Z.ltb_spec
    (Z.of_N (to_N b0) + 256 * Z.of_N (to_N b1) + 65536 * Z.of_N (to_N b2)
     + 16777216 * Z.of_N (to_N b3)) 2147483648); lia.
Qed.

Lemma unpack_ints_int32 n bs : Forall int32 (unpack_ints n bs).
Proof.
  revert bs. induction n as [|n IH]; intros bs; simpl; [constructor|].
  destruct bs as [|b0 [|b1 [|b2 [|b3 rest]]]]; try constructor.
  - apply int32_of_le_range.
  - apply IH.
Qed.

Lemma unpack_ints_length n bs :
  length bs = 4 * n -> length (unpack_ints n bs) = n.
Proof.
  revert bs. induction n as [|n IH]; intros bs Hl; simpl; [reflexivity|].
  destruct bs as [|b0 [|b1 [|b2 [|b3 rest]]]]; simpl in Hl; try lia.
  simpl. rewrite IH; lia.
Qed.

Lemma combine_int32 (b1 b2 : list Z) :
  Forall int32 b1 -> Forall int32 b2 -> Forall int32_frame (combine b1 b2).
Proof.
  intros H1. revert b2. induction H1 as [|x b1 Hx _ IH]; intros b2 H2; simpl.
  - constructor.
  - destruct H2 as [|y b2 Hy H2]; constructor; [split; assumption | now apply IH].
Qed.

(** Every frame the callback stores is a pair of 32-bit samples. *)
Lemma process_int32 raw_audio in_1 in_2 frame_count raw_audio' :
  Forall int32_frame raw_audio ->
  process raw_audio in_1 in_2 frame_count = Ok raw_audio' ->
  Forall int32_frame raw_audio'.
Proof.
  intros Hd. unfold process, unpack_bytes.
  destruct (length in_1 =? 4 * frame_count); cbn [bind]; [|discriminate].
  destruct (length in_2 =? 4 * frame_count); cbn [bind]; [|discriminate].
  intros [= <-]. rewrite appendleft_all_rev.
  apply Forall_app. split; [|assumption].
  apply Forall_rev, combine_int32; apply unpack_ints_int32.
Qed.

(** A well-sized pair of port buffers is always accepted, and adds
    [frame_count] frames. *)
Lemma process_ok raw_audio in_1 in_2 frame_count :
  length in_1 = 4 * frame_count -> length in_2 = 4 * frame_count ->
  exists raw_audio',
    process raw_audio in_1 in_2 frame_count = Ok raw_audio' /\
    length raw_audio' = frame_count + length raw_audio.
Proof.
  intros H1 H2. unfold process, unpack_bytes.
  rewrite H1, H2, Nat.eqb_refl. cbn [bind]. eexists. split; [reflexivity|].
  rewrite appendleft_all_rev, length_app, length_rev.
  unfold sample_frame. rewrite length_combine.
  rewrite !unpack_ints_length by assumption. lia.
Qed.

(** * Frame extraction *)

Lemma wrap64_int32_sum (p : sample_frame) :
  int32_frame p -> wrap64 (fst p + snd p) = (fst p + snd p)%Z.
Proof.
  unfold int32_frame, int32, wrap64.
  change (2 ^ 31)%Z with 2147483648%Z.
  change (2 ^ 63)%Z with 9223372036854775808%Z.
  change (2 ^ 64)%Z with 18446744073709551616%Z.
  intros [H1 H2]. rewrite Z.mod_small; lia.
Qed.

Lemma audio_mono_exact (audio : list sample_frame) :
  Forall int32_frame audio ->
  audio_mono audio = map (fun p => (fst p + snd p)%Z) audio.
Proof.
  unfold audio_mono. induction 1 as [|p audio Hp _ IH]; simpl; [reflexivity|].
  now rewrite IH, wrap64_int32_sum.
Qed.

Lemma extract_enough audio_buffer samples_per_frame :
  0 < samples_per_frame -> samples_per_frame <= length audio_buffer ->
  extract audio_buffer samples_per_frame =
    Ready (Ok (audio_mono
                 (rev (skipn (length audio_buffer - samples_per_frame)
                             audio_buffer)),
               firstn (length audio_buffer - samples_per_frame) audio_buffer)).
Proof.
  intros Hpos Hle. unfold extract.
  destruct (Nat.ltb_spec (length audio_buffer) samples_per_frame); [lia|].
  rewrite pop_frames_enough by assumption. simpl.
  destruct (rev (skipn (length audio_buffer - samples_per_frame) audio_buffer))
    eqn:E; [|reflexivity].
  apply (f_equal (@length _)) in E.
  rewrite length_rev, length_skipn in E. simpl in E. lia.
Qed.

Lemma extract_inv audio_buffer samples_per_frame mono rest :
  extract audio_buffer samples_per_frame = Ready (Ok (mono, rest)) ->
  exists audio,
    pop_frames samples_per_frame audio_buffer = Ok (audio, rest) /\
    mono = audio_mono audio.
Proof.
  unfold extract.
  destruct (length audio_buffer <? samples_per_frame); [discriminate|].
  destruct (pop_frames samples_per_frame audio_buffer) as [[audio r]|];
    simpl; [|discriminate].
  destruct audio as [|a audio]; [discriminate|].
  intros [= <- <-]. eexists. split; reflexivity.
Qed.

Lemma extract_starved audio_buffer samples_per_frame :
  length audio_buffer < samples_per_frame ->
  extract audio_buffer samples_per_frame = Starved.
Proof.
  intros H. unfold extract.
  now destruct (Nat.ltb_spec (length audio_buffer) samples_per_frame); [|lia].
Qed.

(** C1 (as the code has it).  Frames A, B, C appended in that order on top of
    any buffer [old] are consumed after the frames of [old] and oldest first:
    extracting all of [old] and two more frames yields the mono samples of
    [old] from its oldest frame on, then those of A and B, and leaves C.  With
    [old] empty, extracting 2 frames returns [A, B]. *)
Theorem extract_oldest_first :
  forall (old : deque sample_frame) (A B C : sample_frame),
    extract (appendleft C (appendleft B (appendleft A old))) (length old + 2)
    = Ready (Ok (audio_mono (rev old ++ [A; B]), [C])).
Proof.
  intros old A B C. unfold appendleft.
  rewrite extract_enough by (cbn [length]; lia).
  replace (length (C :: B :: A :: old) - (length old + 2)) with 1
    by (cbn [length]; lia).
  cbn [firstn skipn rev]. now rewrite <- app_assoc.
Qed.

(** C1, refuted as stated.  The callback delivers A = (1, 10), B = (2, 20),
    C = (3, 30); extracting 2 frames returns the mono samples of A and B,
    [11; 22], and not those of C and B, [33; 22]. *)
Lemma newest_first_counterexample :
  process []
    [x01; x00; x00; x00; x02; x00; x00; x00; x03; x00; x00; x00]
    [x0a; x00; x00; x00; x14; x00; x00; x00; x1e; x00; x00; x00] 3
  = Ok [(3, 30); (2, 20); (1, 10)]%Z /\
  extract [(3, 30); (2, 20); (1, 10)]%Z 2
  = Ready (Ok ([11; 22]%Z, [(3, 30)%Z])) /\
  audio_mono [(3, 30); (2, 20)]%Z = [33; 22]%Z /\
  extract [(3, 30); (2, 20); (1, 10)]%Z 2
  <> Ready (Ok (audio_mono [(3, 30); (2, 20)]%Z, [(1, 10)%Z])).
Proof.
  repeat split; try reflexivity. vm_compute. discriminate.
Qed.

(** C4.  With [frame_count > 0] frames requested and at least that many
    buffered, [frame_count] frames are popped and the mono frame has exactly
    [frame_count] elements, element [i] being left + right of the [i]-th
    frame popped.  The frames are pairs of 32-bit samples, as every frame the
    callback stores is ([process_int32]). *)
Theorem extract_exact_frame :
  forall (audio_buffer : deque sample_frame) (frame_count : nat),
    0 < frame_count ->
    frame_count <= length audio_buffer ->
    Forall int32_frame audio_buffer ->
    exists popped rest,
      pop_frames frame_count audio_buffer = Ok (popped, rest) /\
      length popped = frame_count /\
      audio_buffer = rest ++ rev popped /\
      extract audio_buffer frame_count
      = Ready (Ok (map (fun p => (fst p + snd p)%Z) popped, rest)) /\
      length (map (fun p => (fst p + snd p)%Z) popped) = frame_count.
Proof.
  intros audio_buffer frame_count Hpos Hle Hrange.
  pose proof (pop_frames_enough frame_count audio_buffer Hle) as Hpop.
  destruct (pop_frames_inv _ _ _ _ Hpop) as [Hlen Hsplit].
  exists (rev (skipn (length audio_buffer - frame_count) audio_buffer)),
         (firstn (length audio_buffer - frame_count) audio_buffer).
  repeat split; try assumption.
  - rewrite extract_enough by assumption.
    rewrite audio_mono_exact; [reflexivity|].
    apply Forall_rev. rewrite <- (firstn_skipn (length audio_buffer - frame_count))
      in Hrange. now apply Forall_app in Hrange.
  - now rewrite length_map.
Qed.

Lemma extract_exact_frame_witness :
  (0 < 2 /\ 2 <= length [(3, -30); (-2, 20); (1, 10)]%Z /\
   Forall int32_frame [(3, -30); (-2, 20); (1, 10)]%Z) /\
  exists popped rest,
    pop_frames 2 [(3, -30); (-2, 20); (1, 10)]%Z = Ok (popped, rest) /\
    length popped = 2 /\
    [(3, -30); (-2, 20); (1, 10)]%Z = rest ++ rev popped /\
    extract [(3, -30); (-2, 20); (1, 10)]%Z 2
    = Ready (Ok (map (fun p => (fst p + snd p)%Z) popped, rest)) /\
    length (map (fun p => (fst p + snd p)%Z) popped) = 2.
Proof.
  assert (H : Forall int32_frame [(3, -30); (-2, 20); (1, 10)]%Z).
  { repeat constructor; simpl; lia. }
  split.
  - split; [lia | split; [simpl; lia | exact H]].
  - apply (extract_exact_frame [(3, -30); (-2, 20); (1, 10)]%Z 2);
      [lia | simpl; lia | exact H].
Defined.

(** C8.  A successful extraction of [frame_count > 0] frames shortens the
    buffer by exactly [frame_count] and changes nothing else: what is left is
    the old buffer without its [frame_count] rightmost frames. *)
Theorem extract_only_removes :
  forall (audio_buffer : deque sample_frame) (frame_count : nat)
         (mono : list Z) (rest : deque sample_frame),
    0 < frame_count ->
    extract audio_buffer frame_count = Ready (Ok (mono, rest)) ->
    length rest + frame_count = length audio_buffer /\
    rest = firstn (length audio_buffer - frame_count) audio_buffer /\
    exists popped,
      length popped = frame_count /\ audio_buffer = rest ++ rev popped.
Proof.
  intros audio_buffer frame_count mono rest _ H.
  apply extract_inv in H as [audio [Hpop _]].
  apply pop_frames_inv in Hpop as [Hlen ->].
  rewrite length_app, length_rev, Hlen.
  repeat split.
  - replace (length rest + frame_count - frame_count) with (length rest + 0)
      by lia.
    now rewrite firstn_app_2, app_nil_r.
  - exists audio. now split.
Qed.

Lemma extract_only_removes_witness :
  (0 < 2 /\
   extract [(3, 30); (2, 20); (1, 10)]%Z 2
   = Ready (Ok ([11; 22]%Z, [(3, 30)%Z]))) /\
  length [(3, 30)%Z] + 2 = length [(3, 30); (2, 20); (1, 10)]%Z /\
  [(3, 30)%Z]
  = firstn (length [(3, 30); (2, 20); (1, 10)]%Z - 2)
           [(3, 30); (2, 20); (1, 10)]%Z /\
  exists popped,
    length popped = 2 /\
    [(3, 30); (2, 20); (1, 10)]%Z = [(3, 30)%Z] ++ rev popped.
Proof.
  split.
  - split; [lia | reflexivity].
  - apply (extract_only_removes [(3, 30); (2, 20); (1, 10)]%Z 2
             [11; 22]%Z [(3, 30)%Z]); [lia | reflexivity].
Defined.

(** C9.  Under every interleaving of the callback's [appendleft]s with the
    consumer's [pop]s, starting from the empty buffer, the frames popped are
    the frames delivered, in arrival order, and the buffer holds the frames
    still to come, the oldest at its right end: the next pop returns the
    oldest frame not yet consumed.  A [process] callback with port buffers of
    four bytes per frame then succeeds and stores every zipped pair: it
    extends the arrivals by its [frame_count] pairs, in the order of the port
    buffers, and a consumer that empties the buffer receives what is left of
    the arrivals, oldest first, the pairs of the one callback among them in
    their order. *)
Theorem pops_in_arrival_order :
  forall (tr : list (event sample_frame)) (d : deque sample_frame)
         (popped : list sample_frame) (in_1 in_2 : list byte)
         (frame_count : nat),
    run tr [] [] = Ok (d, popped) ->
    length in_1 = 4 * frame_count ->
    length in_2 = 4 * frame_count ->
    appended tr = popped ++ rev d /\
    (forall x d', pop d = Ok (x, d') -> appended tr = popped ++ x :: rev d') /\
    exists (buffer_one buffer_two : list Z) (d' : deque sample_frame),
      unpack_bytes in_1 frame_count = Ok buffer_one /\
      unpack_bytes in_2 frame_count = Ok buffer_two /\
      length (combine buffer_one buffer_two) = frame_count /\
      process d in_1 in_2 frame_count = Ok d' /\
      run (tr ++ map Appendleft (combine buffer_one buffer_two)) [] []
      = Ok (d', popped) /\
      popped ++ rev d' = appended tr ++ combine buffer_one buffer_two /\
      pop_frames (length d') d' = Ok (rev d', []).
Proof.
  intros tr d popped in_1 in_2 n H Hl1 Hl2.
  pose proof (run_invariant _ _ _ _ _ H) as Hinv.
  simpl in Hinv. split; [exact Hinv|]. split.
  - intros x d' Hp. apply pop_inv in Hp. subst d.
    rewrite Hinv, rev_app_distr. reflexivity.
  - destruct (process_ok d in_1 in_2 n Hl1 Hl2) as [d' [Hproc _]].
    destruct (process_run _ _ _ _ _ popped Hproc) as [b1 [b2 [H1 [H2 Hrun]]]].
    assert (Hb1 : length b1 = n).
    { unfold unpack_bytes in H1. rewrite Hl1, Nat.eqb_refl in H1.
      injection H1 as <-. now apply unpack_ints_length. }
    assert (Hb2 : length b2 = n).
    { unfold unpack_bytes in H2. rewrite Hl2, Nat.eqb_refl in H2.
      injection H2 as <-. now apply unpack_ints_length. }
    assert (Hall : run (tr ++ map Appendleft (combine b1 b2)) [] []
                   = Ok (d', popped))
      by (rewrite run_app, H; exact Hrun).
    exists b1, b2, d'. repeat split; try assumption.
    + rewrite length_combine. lia.
    + apply run_invariant in Hall. simpl in Hall.
      now rewrite <- Hall, appended_app, appended_map.
    + rewrite pop_frames_enough by lia. rewrite Nat.sub_diag. reflexivity.
Qed.

Lemma pops_in_arrival_order_witness :
  (run [Appendleft (1, 10); Appendleft (2, 20); Pop; Appendleft (3, 30); Pop]%Z
       [] []
   = Ok ([(3, 30)], [(1, 10); (2, 20)])%Z /\
   length [x04; x00; x00; x00; xfb; xff; xff; xff] = 4 * 2 /\
   length [x28; x00; x00; x00; x32; x00; x00; x00] = 4 * 2) /\
  appended
    [Appendleft (1, 10); Appendleft (2, 20); Pop; Appendleft (3, 30); Pop]%Z
  = ([(1, 10); (2, 20)] ++ rev [(3, 30)])%Z /\
  (forall x d', pop [(3, 30)%Z] = Ok (x, d') ->
     appended
       [Appendleft (1, 10); Appendleft (2, 20); Pop; Appendleft (3, 30); Pop]%Z
     = [(1, 10); (2, 20)]%Z ++ x :: rev d') /\
  exists (buffer_one buffer_two : list Z) (d' : deque sample_frame),
    unpack_bytes [x04; x00; x00; x00; xfb; xff; xff; xff] 2 = Ok buffer_one /\
    unpack_bytes [x28; x00; x00; x00; x32; x00; x00; x00] 2 = Ok buffer_two /\
    length (combine buffer_one buffer_two) = 2 /\
    process [(3, 30)%Z] [x04; x00; x00; x00; xfb; xff; xff; xff]
      [x28; x00; x00; x00; x32; x00; x00; x00] 2 = Ok d' /\
    run ([Appendleft (1, 10); Appendleft (2, 20); Pop;
          Appendleft (3, 30); Pop]%Z
         ++ map Appendleft (combine buffer_one buffer_two)) [] []
    = Ok (d', [(1, 10); (2, 20)]%Z) /\
    [(1, 10); (2, 20)]%Z ++ rev d'
    = appended
        [Appendleft (1, 10); Appendleft (2, 20); Pop;
         Appendleft (3, 30); Pop]%Z
      ++ combine buffer_one buffer_two /\
    pop_frames (length d') d' = Ok (rev d', []).
Proof.
  split.
  - repeat split.
  - apply (pops_in_arrival_order
             [Appendleft (1, 10); Appendleft (2, 20); Pop;
              Appendleft (3, 30); Pop]%Z
             [(3, 30)%Z] [(1, 10); (2, 20)]%Z
             [x04; x00; x00; x00; xfb; xff; xff; xff]
             [x28; x00; x00; x00; x32; x00; x00; x00] 2); reflexivity.
Defined.

(** The callback of the run above, evaluated: the frames (4, 40) and
    (-5, 50) go on the left of the buffered (3, 30), and emptying the buffer
    returns (3, 30), (4, 40), (-5, 50) in that order. *)
Example process_in_run :
  process [(3, 30)%Z] [x04; x00; x00; x00; xfb; xff; xff; xff]
    [x28; x00; x00; x00; x32; x00; x00; x00] 2
  = Ok [(-5, 50); (4, 40); (3, 30)]%Z /\
  pop_frames 3 [(-5, 50); (4, 40); (3, 30)]%Z
  = Ok ([(3, 30); (4, 40); (-5, 50)]%Z, []).
Proof. split; reflexivity. Qed.

(** * Bin aggregation *)

Section AggregateFacts.
Context {A : Type} {SA : Scalar A}.
Implicit Types (a array psd : list A) (rows : list (list A)).

Lemma slice_length st en a :
  st <= en -> en <= length a -> length (slice st en a) = en - st.
Proof.
  intros H1 H2. unfold slice. rewrite length_firstn, length_skipn. lia.
Qed.

Lemma slice_shift k st en a :
  slice (k + st) (k + en) a = slice st en (skipn k a).
Proof.
  unfold slice. rewrite skipn_skipn. f_equal; [lia | f_equal; lia].
Qed.

Lemma groups_of_succ each parts a :
  groups_of each (S parts) a
  = firstn each a :: groups_of each parts (skipn each a).
Proof.
  unfold groups_of. cbn [seq map]. f_equal.
  - unfold slice. cbn [Nat.mul Nat.add skipn]. f_equal. lia.
  - rewrite <- seq_shift, map_map. apply map_ext. intros i.
    rewrite <- slice_shift. f_equal; lia.
Qed.

(** The groups are contiguous and cover the array: concatenated in order
    they give it back. *)
Lemma groups_of_concat each parts a :
  length a = parts * each -> concat (groups_of each parts a) = a.
Proof.
  revert a. induction parts as [|parts IH]; intros a Hlen.
  - destruct a; [reflexivity | discriminate].
  - rewrite groups_of_succ. cbn [concat]. rewrite IH.
    + apply firstn_skipn.
    + rewrite length_skipn. lia.
Qed.

Lemma groups_of_length each parts a :
  length (groups_of each parts a) = parts.
Proof. unfold groups_of. now rewrite length_map, length_seq. Qed.

Lemma groups_of_each each parts a :
  length a = parts * each ->
  Forall (fun g => length g = each) (groups_of each parts a).
Proof.
  intros Hlen. unfold groups_of. apply Forall_forall. intros g Hg.
  apply in_map_iff in Hg as [i [<- Hi]]. apply in_seq in Hi.
  rewrite slice_length; nia.
Qed.

Lemma groups_of_nth each parts a i :
  i < parts ->
  nth i (groups_of each parts a) [] = firstn each (skipn (i * each) a).
Proof.
  intros Hi. unfold groups_of.
  rewrite (nth_indep _ [] (slice (0 * each) ((0 + 1) * each) a))
    by now rewrite length_map, length_seq.
  rewrite (map_nth (fun i => slice (i * each) ((i + 1) * each) a)).
  rewrite seq_nth by assumption. unfold slice. f_equal. lia.
Qed.

Lemma truncated_length array parts :
  length (firstn (length array - length array mod parts) array)
  = parts * (length array / parts).
Proof.
  rewrite length_firstn.
  pose proof (Nat.Div0.div_mod (length array) parts). lia.
Qed.

(** For a positive number of parts the split never fails: the truncated
    array divides exactly. *)
Lemma aggressive_array_split_ok array parts :
  0 < parts ->
  aggressive_array_split array parts
  = Ok (groups_of (length array / parts) parts
          (firstn (length array - length array mod parts) array)).
Proof.
  intros Hpos. unfold aggressive_array_split, np_split.
  destruct parts as [|n]; [lia|].
  rewrite truncated_length.
  rewrite (Nat.mul_comm (S n)), Nat.Div0.mod_mul, Nat.div_mul by lia.
  reflexivity.
Qed.

Lemma rectangular_groups each parts a :
  length a = parts * each -> rectangular (groups_of each parts a) = true.
Proof.
  intros Hlen. pose proof (groups_of_each each parts a Hlen) as Hall.
  unfold rectangular. apply forallb_forall. intros g Hg.
  apply Nat.eqb_eq. rewrite Forall_forall in Hall.
  rewrite (Hall g Hg). unfold ncols.
  destruct (groups_of each parts a) as [|g0 gs] eqn:E; [destruct Hg|].
  symmetry. apply Hall. now left.
Qed.

(** The weights of a cycle: one sum per group. *)
Lemma aggregate_ok psd bin_count :
  0 < bin_count ->
  aggregate psd bin_count
  = Ok (map np_sum
          (groups_of (length psd / bin_count) bin_count
             (firstn (length psd - length psd mod bin_count) psd))).
Proof.
  intros Hpos. unfold aggregate.
  rewrite aggressive_array_split_ok by assumption. cbn [bind].
  unfold np_sum_axis1.
  rewrite rectangular_groups
    by (rewrite truncated_length; reflexivity).
  destruct (groups_of _ bin_count _) as [|g gs] eqn:E.
  - apply (f_equal (@length _)) in E. rewrite groups_of_length in E.
    simpl in E. lia.
  - cbn [bind]. rewrite <- E, length_map, groups_of_length, Nat.eqb_refl.
    reflexivity.
Qed.

Lemma map_const_seq_list (c : list A) (f : nat -> list A) n :
  (forall i, f i = c) -> map f (seq 0 n) = repeat c n.
Proof.
  intros Hf. generalize 0 as s. induction n as [|n IH]; intros s; simpl.
  - reflexivity.
  - now rewrite Hf, IH.
Qed.
End AggregateFacts.

(** * One cycle of the generator *)

Section Cycle.
Context {A : Type} {SA : Scalar A}.
Variable signal_welch : list Z -> Z -> nat -> result (list A).

(** The shape assertion is what lets a weight vector through. *)
Lemma aggregate_inv (psd weights : list A) (bin_count : nat) :
  aggregate psd bin_count = Ok weights -> length weights = bin_count.
Proof.
  unfold aggregate.
  destruct (aggressive_array_split psd bin_count) as [groups|];
    cbn [bind]; [|discriminate].
  destruct (np_sum_axis1 groups) as [summed|]; cbn [bind]; [|discriminate].
  destruct (Nat.eqb_spec (length summed) bin_count); [|discriminate].
  now intros [= <-].
Qed.

(** Whatever the spectral estimator returns, a cycle that yields has
    consumed [samples_per_frame] frames and yields one weight per bin. *)
Lemma periodogram_cycle_yield audio_buffer samples_per_frame sample_rate
    bin_count (weights : list A) rest :
  periodogram_cycle signal_welch audio_buffer samples_per_frame sample_rate
    bin_count = Ready (Ok (weights, rest)) ->
  length weights = bin_count /\
  length rest + samples_per_frame = length audio_buffer.
Proof.
  unfold periodogram_cycle.
  destruct (extract audio_buffer samples_per_frame) as [|[[mono r]|]] eqn:E;
    cbn [bind]; try discriminate.
  destruct (welch_periodogram signal_welch mono sample_rate bin_count)
    as [psd|]; cbn [bind]; [|discriminate].
  destruct (aggregate psd bin_count) as [w|] eqn:Hagg; cbn [bind];
    [|discriminate].
  intros [= <- <-]. split; [now apply aggregate_inv in Hagg|].
  apply extract_inv in E as [audio [Hpop _]].
  apply pop_frames_inv in Hpop as [Hlen ->].
  rewrite length_app, length_rev. lia.
Qed.

(** A starved buffer makes the cycle sleep, leaving everything as it is. *)
Lemma periodogram_cycle_starved audio_buffer samples_per_frame sample_rate
    bin_count :
  length audio_buffer < samples_per_frame ->
  periodogram_cycle signal_welch audio_buffer samples_per_frame sample_rate
    bin_count = Starved.
Proof.
  intros H. unfold periodogram_cycle. now rewrite extract_starved.
Qed.
End Cycle.

(** C3.  A spectrum at least [bin_count] long, with [bin_count > 0], is
    aggregated without error into exactly [bin_count] weights. *)
Theorem aggregate_length :
  forall (A : Type) (SA : Scalar A) (psd : list A) (bin_count : nat),
    0 < bin_count ->
    bin_count <= length psd ->
    exists weights,
      aggregate psd bin_count = Ok weights /\ length weights = bin_count.
Proof.
  intros A SA psd bin_count Hpos _.
  eexists. split; [apply aggregate_ok; assumption|].
  now rewrite length_map, groups_of_length.
Qed.

Lemma aggregate_length_witness :
  (0 < 2 /\ 2 <= length [1.5; 0.25; 2; 4; 8]%float) /\
  exists weights,
    aggregate [1.5; 0.25; 2; 4; 8]%float 2 = Ok weights /\
    length weights = 2.
Proof.
  split.
  - split; [lia | simpl; lia].
  - apply (aggregate_length float float64 [1.5; 0.25; 2; 4; 8]%float 2);
      [lia | simpl; lia].
Defined.

(** C10.  A spectrum shorter than [bin_count] is truncated to nothing; the
    split still succeeds, with [bin_count] empty groups; their sums are
    [bin_count] zeros; the shape assertion holds; the cycle yields the zero
    weight vector. *)
Theorem aggregate_short_spectrum :
  forall (A : Type) (SA : Scalar A) (psd : list A) (bin_count : nat),
    0 < length psd ->
    length psd < bin_count ->
    length psd - length psd mod bin_count = 0 /\
    aggressive_array_split psd bin_count = Ok (repeat [] bin_count) /\
    np_sum_axis1 (repeat (@nil A) bin_count) = Ok (repeat sc_zero bin_count) /\
    aggregate psd bin_count = Ok (repeat sc_zero bin_count).
Proof.
  intros A SA psd bin_count Hne Hlt.
  assert (Hpos : 0 < bin_count) by lia.
  assert (Hend : length psd - length psd mod bin_count = 0)
    by (rewrite Nat.mod_small by assumption; lia).
  assert (Hgroups : groups_of (length psd / bin_count) bin_count
                      (firstn (length psd - length psd mod bin_count) psd)
                    = repeat [] bin_count).
  { rewrite Hend. cbn [firstn]. unfold groups_of.
    apply map_const_seq_list. intros i. unfold slice.
    now rewrite skipn_nil, firstn_nil. }
  assert (Hagg : aggregate psd bin_count = Ok (repeat sc_zero bin_count)).
  { rewrite aggregate_ok, Hgroups by assumption. f_equal.
    clear. induction bin_count as [|n IH]; simpl; [reflexivity | now rewrite IH]. }
  repeat split; try assumption.
  - now rewrite aggressive_array_split_ok, Hgroups.
  - unfold aggregate in Hagg.
    rewrite aggressive_array_split_ok, Hgroups in Hagg by assumption.
    cbn [bind] in Hagg.
    destruct (np_sum_axis1 (repeat [] bin_count)) as [summed|e] eqn:E;
      cbn [bind] in Hagg; [|discriminate].
    destruct (length summed =? bin_count); congruence.
Qed.

Lemma aggregate_short_spectrum_witness :
  (0 < length [1.5; 0.25]%float /\ length [1.5; 0.25]%float < 4) /\
  length [1.5; 0.25]%float - length [1.5; 0.25]%float mod 4 = 0 /\
  aggressive_array_split [1.5; 0.25]%float 4 = Ok (repeat [] 4) /\
  np_sum_axis1 (repeat (@nil float) 4) = Ok (repeat sc_zero 4) /\
  aggregate [1.5; 0.25]%float 4 = Ok (repeat sc_zero 4).
Proof.
  split.
  - simpl; lia.
  - apply (aggregate_short_spectrum float float64 [1.5; 0.25]%float 4);
      simpl; lia.
Defined.

(** * Sums over the reals *)

Section RealFacts.
Local Open Scope R_scope.

Lemma sigma_cons (x : R) (l : list R) : sigma (x :: l) = x + sigma l.
Proof. reflexivity. Qed.

Lemma fold_left_Rplus (l : list R) (a : R) :
  fold_left Rplus l a = a + sigma l.
Proof.
  revert a. induction l as [|x l IH]; intros a; cbn [fold_left].
  - unfold sigma. simpl. lra.
  - rewrite IH, sigma_cons. lra.
Qed.

(** On the reals the order of the additions does not matter: [np.sum] is
    the sum. *)
Lemma np_sum_real (l : list R) : np_sum l = sigma l.
Proof. unfold np_sum. simpl. rewrite fold_left_Rplus. lra. Qed.

Lemma sigma_app (l1 l2 : list R) : sigma (l1 ++ l2) = sigma l1 + sigma l2.
Proof.
  induction l1 as [|x l1 IH]; cbn [app].
  - unfold sigma at 2. simpl. lra.
  - rewrite !sigma_cons, IH. lra.
Qed.

Lemma sigma_concat (rows : list (list R)) :
  sigma (map sigma rows) = sigma (concat rows).
Proof.
  induction rows as [|r rows IH]; cbn [map concat]; [reflexivity|].
  now rewrite sigma_cons, sigma_app, IH.
Qed.
End RealFacts.

Lemma truncated_group {A : Type} (psd : list A) (each parts i : nat) :
  i < parts ->
  firstn each (skipn (i * each) (firstn (parts * each) psd))
  = firstn each (skipn (i * each) psd).
Proof.
  intros Hi. rewrite skipn_firstn_comm, firstn_firstn. f_equal. nia.
Qed.

(** How the weights are cut out of the spectrum, for any element type. *)
Lemma aggregate_groups {A : Type} {SA : Scalar A} (psd weights : list A)
    (bin_count : nat) :
  aggregate psd bin_count = Ok weights ->
  exists groups : list (list A),
    aggressive_array_split psd bin_count = Ok groups /\
    length groups = bin_count /\
    concat groups = firstn (length psd - length psd mod bin_count) psd /\
    length psd = length (concat groups) + length psd mod bin_count /\
    (forall i, i < bin_count ->
       nth i groups []
       = firstn (length psd / bin_count)
                (skipn (i * (length psd / bin_count)) psd)) /\
    weights = map np_sum groups.
Proof.
  intros Hagg.
  destruct (Nat.eq_dec bin_count 0) as [->|Hnz]; [discriminate Hagg|].
  assert (Hpos : 0 < bin_count) by lia.
  rewrite aggregate_ok in Hagg by assumption. injection Hagg as <-.
  pose proof (truncated_length psd bin_count) as Htrunc.
  assert (Hcat := groups_of_concat (length psd / bin_count) bin_count _ Htrunc).
  eexists. split; [apply aggressive_array_split_ok; assumption|].
  rewrite Hcat. repeat split.
  - apply groups_of_length.
  - rewrite length_firstn.
    pose proof (Nat.Div0.mod_le (length psd) bin_count). lia.
  - intros i Hi. rewrite groups_of_nth by assumption.
    replace (length psd - length psd mod bin_count)
      with (bin_count * (length psd / bin_count)).
    + now apply truncated_group.
    + pose proof (Nat.Div0.div_mod (length psd) bin_count). lia.
Qed.

(** C6 (as the code has it).  In every element type, binary64 included,
    when [aggregate] returns weights for a spectrum at least [bin_count]
    long: only the [len(psd) % bin_count] last entries are dropped; the rest
    is cut into [bin_count] contiguous groups of equal length, group [i]
    being [psd[i*each : (i+1)*each]], so group 0 holds the lowest
    frequencies; each entry is in one group only, and each weight is
    [np.sum] of its group.  Over exact arithmetic the weights then add up to
    the sum of the truncated spectrum, hence do not exceed it; in binary64
    each sum is rounded and this last part does not hold. *)
Theorem aggregate_no_double_counting :
  (forall (A : Type) (SA : Scalar A) (psd weights : list A)
          (bin_count : nat),
     bin_count <= length psd ->
     aggregate psd bin_count = Ok weights ->
     exists groups : list (list A),
       aggressive_array_split psd bin_count = Ok groups /\
       length groups = bin_count /\
       concat groups = firstn (length psd - length psd mod bin_count) psd /\
       length psd
       = length (concat groups) + length psd mod bin_count /\
       (forall i, i < bin_count ->
          nth i groups []
          = firstn (length psd / bin_count)
                   (skipn (i * (length psd / bin_count)) psd)) /\
       weights = map np_sum groups) /\
  (forall (psd weights : list R) (bin_count : nat),
     bin_count <= length psd ->
     aggregate psd bin_count = Ok weights ->
     sigma weights
     = sigma (firstn (length psd - length psd mod bin_count) psd) /\
     (sigma weights
      <= sigma (firstn (length psd - length psd mod bin_count) psd))%R).
Proof.
  split.
  - intros A SA psd weights bin_count _ Hagg.
    now apply aggregate_groups.
  - intros psd weights bin_count _ Hagg.
    destruct (aggregate_groups psd weights bin_count Hagg)
      as [groups [_ [_ [Hcat [_ [_ ->]]]]]].
    assert (Heq : sigma (map np_sum groups)
                  = sigma (firstn (length psd - length psd mod bin_count)
                                  psd)).
    { rewrite (map_ext np_sum sigma) by exact np_sum_real.
      now rewrite sigma_concat, Hcat. }
    split; [exact Heq | rewrite Heq; apply Rle_refl].
Qed.

Lemma aggregate_no_double_counting_witness :
  ((2 <= length [1; 2; 4; 8; 16]%float /\
    aggregate [1; 2; 4; 8; 16]%float 2 = Ok [3; 12]%float) /\
   exists groups : list (list float),
     aggressive_array_split [1; 2; 4; 8; 16]%float 2 = Ok groups /\
     length groups = 2 /\
     concat groups
     = firstn (length [1; 2; 4; 8; 16]%float
               - length [1; 2; 4; 8; 16]%float mod 2)
              [1; 2; 4; 8; 16]%float /\
     length [1; 2; 4; 8; 16]%float
     = length (concat groups) + length [1; 2; 4; 8; 16]%float mod 2 /\
     (forall i, i < 2 ->
        nth i groups []
        = firstn (length [1; 2; 4; 8; 16]%float / 2)
                 (skipn (i * (length [1; 2; 4; 8; 16]%float / 2))
                        [1; 2; 4; 8; 16]%float)) /\
     [3; 12]%float = map np_sum groups) /\
  ((2 <= length [1; 2; 4; 8; 16]%R /\
    aggregate [1; 2; 4; 8; 16]%R 2
    = Ok (map np_sum [[1; 2]; [4; 8]]%R)) /\
   sigma (map np_sum [[1; 2]; [4; 8]]%R)
   = sigma (firstn (length [1; 2; 4; 8; 16]%R
                    - length [1; 2; 4; 8; 16]%R mod 2)
                   [1; 2; 4; 8; 16]%R) /\
   (sigma (map np_sum [[1; 2]; [4; 8]]%R)
    <= sigma (firstn (length [1; 2; 4; 8; 16]%R
                      - length [1; 2; 4; 8; 16]%R mod 2)
                     [1; 2; 4; 8; 16]%R))%R).
Proof.
  assert (Hf : aggregate [1; 2; 4; 8; 16]%float 2 = Ok [3; 12]%float)
    by (vm_compute; reflexivity).
  assert (Hr : aggregate [1; 2; 4; 8; 16]%R 2
               = Ok (map np_sum [[1; 2]; [4; 8]]%R)) by reflexivity.
  split.
  - split; [split; [simpl; lia | exact Hf]|].
    apply (proj1 aggregate_no_double_counting float float64
             [1; 2; 4; 8; 16]%float [3; 12]%float 2);
      [simpl; lia | exact Hf].
  - split; [split; [simpl; lia | exact Hr]|].
    apply (proj2 aggregate_no_double_counting [1; 2; 4; 8; 16]%R
             (map np_sum [[1; 2]; [4; 8]]%R) 2); [simpl; lia | exact Hr].
Defined.

(** C6, refuted as stated.  In binary64 the spectrum 0.1, 0.1, 0.3, 0.1
    (their nearest doubles) with two bins gives the weights 0.2 and 0.4, the
    second rounded up; added up they give 0.6000000000000001, more than the
    0.6 the four entries add up to.  Likewise 2^53, 3, 1, 1 gives the weights
    2^53 + 4 and 2, whose sum 2^53 + 6 exceeds the exact sum 2^53 + 5 of the
    entries and their binary64 sum 2^53 + 4. *)
Lemma aggregate_rounding_counterexample :
  aggregate [0x1.999999999999ap-4; 0x1.999999999999ap-4;
             0x1.3333333333333p-2; 0x1.999999999999ap-4]%float 2
  = Ok [0x1.999999999999ap-3; 0x1.999999999999ap-2]%float /\
  np_sum [0x1.999999999999ap-4; 0x1.999999999999ap-4;
          0x1.3333333333333p-2; 0x1.999999999999ap-4]%float
  = 0x1.3333333333333p-1%float /\
  np_sum [0x1.999999999999ap-3; 0x1.999999999999ap-2]%float
  = 0x1.3333333333334p-1%float /\
  (0x1.3333333333333p-1 <? 0x1.3333333333334p-1)%float = true /\
  aggregate [9007199254740992; 3; 1; 1]%float 2
  = Ok [9007199254740996; 2]%float /\
  np_sum [9007199254740992; 3; 1; 1]%float = 9007199254740996%float /\
  np_sum [9007199254740996; 2]%float = 9007199254740998%float /\
  (9007199254740996 <? 9007199254740998)%float = true.
Proof.
  repeat split; vm_compute; reflexivity.
Qed.

(** * Shapes in the latent direction *)

Section Shapes.
Context {A : Type} {SA : Scalar A}.
Implicit Types (weights x y acc : list A) (noise rows : list (list A)).

Lemma map2_length (f : A -> A -> A) x y :
  length x = length y -> length (map2 f x y) = length x.
Proof.
  intros H. unfold map2. rewrite length_map, length_combine. lia.
Qed.

Lemma fold_map2_length (f : A -> A -> A) rows acc :
  Forall (fun r => length r = length acc) rows ->
  length (fold_left (map2 f) rows acc) = length acc.
Proof.
  revert acc. induction rows as [|r rows IH]; intros acc Hall;
    [reflexivity|].
  inversion Hall as [|r' rows' Hr Hrows]; subst. cbn [fold_left].
  assert (Hlen : length (map2 f acc r) = length acc)
    by now apply map2_length.
  rewrite IH; [exact Hlen | now rewrite Hlen].
Qed.

Lemma rectangular_rows noise :
  rectangular noise = true ->
  Forall (fun r => length r = ncols noise) noise.
Proof.
  unfold rectangular. intros H. apply Forall_forall. intros r Hr.
  rewrite forallb_forall in H. now apply Nat.eqb_eq, H.
Qed.

(** Scaling the rows keeps the shape of the basis. *)
Lemma scaled_shape weights noise :
  length weights = length noise ->
  rectangular noise = true ->
  ncols (map (fun p => map (sc_mul (fst p)) (snd p)) (combine weights noise))
  = ncols noise /\
  Forall (fun r => length r = ncols noise)
    (map (fun p => map (sc_mul (fst p)) (snd p)) (combine weights noise)).
Proof.
  intros Hlen Hrect. split.
  - destruct weights as [|w ws], noise as [|r rs];
      try discriminate Hlen; [reflexivity|]. simpl. apply length_map.
  - apply Forall_forall. intros r Hr.
    apply in_map_iff in Hr as [[w r0] [<- Hin]].
    apply in_combine_r in Hin. rewrite length_map. cbn [snd].
    pose proof (rectangular_rows noise Hrect) as Hrows.
    rewrite Forall_forall in Hrows. now apply Hrows.
Qed.

(** With one weight per seed the direction is computed without error and
    has the dimension of the noise vectors. *)
Lemma normalised_noise_shape weights noise :
  length weights = length noise ->
  rectangular noise = true ->
  exists ws,
    weighted_sum weights noise = Ok ws /\
    length ws = ncols noise /\
    normalised_noise weights noise
    = Ok (map (fun a => sc_div a (np_linalg_norm ws)) ws).
Proof.
  intros Hlen Hrect. unfold normalised_noise, weighted_sum, weighted_noise.
  rewrite Hlen, Nat.eqb_refl. cbn [bind]. eexists.
  split; [reflexivity | split; [|reflexivity]].
  destruct (scaled_shape weights noise Hlen Hrect) as [Hcols Hall].
  unfold np_sum_axis0. rewrite fold_map2_length; rewrite repeat_length, Hcols;
    [reflexivity | exact Hall].
Qed.
End Shapes.

(** * The latent direction over the reals *)

Section DirectionFacts.
Local Open Scope R_scope.
Implicit Types (weights v x acc : list R) (noise rows : list (list R)).

Lemma map2_Rplus_nth x y j :
  length x = length y ->
  nth j (map2 Rplus x y) 0 = nth j x 0 + nth j y 0.
Proof.
  revert y j. induction x as [|a x IH]; intros [|b y] j H;
    try discriminate H.
  - destruct j; simpl; lra.
  - destruct j as [|j]; [reflexivity|].
    apply (IH y j). now injection H.
Qed.

Lemma map2_diag (f : R -> R -> R) x : map2 f x x = map (fun a => f a a) x.
Proof.
  unfold map2. induction x as [|a x IH]; simpl; [reflexivity | now rewrite IH].
Qed.

(** Column sums: component [j] of the fold is the start value plus the sum
    of the [j]-th entries of the rows. *)
Lemma fold_map2_nth rows acc :
  Forall (fun r => length r = length acc) rows ->
  length (fold_left (map2 Rplus) rows acc) = length acc /\
  forall j, nth j (fold_left (map2 Rplus) rows acc) 0
            = nth j acc 0 + sigma (map (fun r => nth j r 0) rows).
Proof.
  revert acc. induction rows as [|r rows IH]; intros acc Hall.
  - split; [reflexivity|]. intros j. unfold sigma. simpl. lra.
  - inversion Hall as [|r' rows' Hr Hrows]; subst.
    assert (Hlen : length (map2 Rplus acc r) = length acc)
      by now apply map2_length.
    destruct (IH (map2 Rplus acc r)) as [IHlen IHnth].
    { rewrite Hlen. exact Hrows. }
    cbn [fold_left]. split; [now rewrite IHlen|].
    intros j. rewrite IHnth, map2_Rplus_nth by now symmetry.
    cbn [map]. rewrite sigma_cons. lra.
Qed.

Lemma scaled_nth (w : R) (r : list R) j : nth j (map (Rmult w) r) 0 = w * nth j r 0.
Proof.
  replace 0 with (w * 0) at 1 by lra. apply map_nth.
Qed.

(** The code's weighted sum is the blend of the specification, component
    by component. *)
Lemma weighted_sum_real weights noise :
  length weights = length noise ->
  rectangular noise = true ->
  exists ws,
    weighted_sum weights noise = Ok ws /\
    length ws = ncols noise /\
    forall j, nth j ws 0 = blend_at weights noise j.
Proof.
  intros Hlen Hrect. unfold weighted_sum, weighted_noise.
  rewrite Hlen, Nat.eqb_refl. cbn [bind]. eexists. split; [reflexivity|].
  unfold np_sum_axis0.
  set (scaled := map (fun p => map (sc_mul (fst p)) (snd p))
                     (combine weights noise)).
  assert (Hcols : ncols scaled = ncols noise).
  { unfold scaled. destruct weights as [|w ws], noise as [|r rs];
      try discriminate Hlen; [reflexivity|]. simpl. apply length_map. }
  assert (Hall : Forall (fun r => length r = length (repeat 0 (ncols scaled)))
                        scaled).
  { rewrite repeat_length, Hcols. unfold scaled. apply Forall_forall.
    intros r Hr. apply in_map_iff in Hr as [[w r0] [<- Hin]].
    apply in_combine_r in Hin. rewrite length_map. cbn [snd].
    pose proof (rectangular_rows noise Hrect) as Hrows.
    rewrite Forall_forall in Hrows. now apply Hrows. }
  destruct (fold_map2_nth scaled _ Hall) as [Hl Hn].
  split.
  - change (@sc_add R real) with Rplus. change (@sc_zero R real) with 0.
    now rewrite Hl, repeat_length.
  - intros j. change (@sc_add R real) with Rplus.
    change (@sc_zero R real) with 0. rewrite Hn, nth_repeat.
    unfold blend_at, scaled. rewrite map_map, Rplus_0_l. f_equal.
    apply map_ext. intros [w r]. cbn [fst snd]. apply scaled_nth.
Qed.

Lemma norm_real v : np_linalg_norm v = l2_norm v.
Proof.
  unfold np_linalg_norm, l2_norm. rewrite np_sum_real, map2_diag. reflexivity.
Qed.

Lemma sigma_sq_nonneg v : 0 <= sigma (map (fun a => a * a) v).
Proof.
  induction v as [|a v IH]; cbn [map]; [unfold sigma; simpl; lra|].
  rewrite sigma_cons. nra.
Qed.

Lemma sigma_sq_pos v a :
  In a v -> a <> 0 -> 0 < sigma (map (fun a => a * a) v).
Proof.
  induction v as [|b v IH]; intros Hin Ha; [destruct Hin|].
  cbn [map]. rewrite sigma_cons.
  pose proof (sigma_sq_nonneg v). destruct Hin as [->|Hin].
  - nra.
  - specialize (IH Hin Ha). nra.
Qed.

Lemma sigma_scale (c : R) v (f : R -> R) :
  sigma (map (fun a => f a * c) v) = sigma (map f v) * c.
Proof.
  induction v as [|a v IH]; cbn [map]; [unfold sigma; simpl; lra|].
  rewrite !sigma_cons, IH. lra.
Qed.

(** Dividing a non-zero vector by its norm gives a unit vector. *)
Lemma normalise_unit v a :
  In a v -> a <> 0 ->
  l2_norm v <> 0 /\ l2_norm (map (fun b => b / l2_norm v) v) = 1.
Proof.
  intros Hin Ha. pose proof (sigma_sq_pos v a Hin Ha) as Hpos.
  assert (Hn : 0 < l2_norm v) by (unfold l2_norm; now apply sqrt_lt_R0).
  assert (Hsq : l2_norm v * l2_norm v = sigma (map (fun a => a * a) v))
    by (unfold l2_norm; apply sqrt_sqrt; lra).
  split; [lra|].
  unfold l2_norm at 1. rewrite map_map.
  rewrite (map_ext _ (fun b => b * b * / (l2_norm v * l2_norm v))).
  - rewrite sigma_scale, Hsq, Rinv_r by lra. apply sqrt_1.
  - intros b. field. lra.
Qed.
End DirectionFacts.




(** * The latent direction in binary64 *)

Section FloatFacts.
Implicit Types (x y : float) (a b acc : list float) (rows : list (list float)).

Lemma is_nan_sf x : Prim2SF x = S754_nan -> is_nan x = true.
Proof. intros H. unfold is_nan. now rewrite eqb_spec, H. Qed.

Lemma is_zero_zon x : is_zero x = true -> zero_or_nan x = true.
Proof.
  unfold is_zero, zero_or_nan. rewrite eqb_spec.
  change (Prim2SF zero) with (S754_zero false).
  destruct (Prim2SF x) as [s|s| |s m e]; try reflexivity; destruct s;
    discriminate.
Qed.

Lemma zon_zero : zero_or_nan 0%float = true.
Proof. reflexivity. Qed.

(** Zero times anything is a zero or, against an infinity or a NaN, a NaN. *)
Lemma zon_mul_l x y : zero_or_nan x = true -> zero_or_nan (x * y)%float = true.
Proof.
  unfold zero_or_nan. rewrite mul_spec.
  destruct (Prim2SF x) as [s|s| |s m e]; try discriminate;
    destruct (Prim2SF y); reflexivity.
Qed.

Lemma zon_add x y :
  zero_or_nan x = true -> zero_or_nan y = true -> zero_or_nan (x + y)%float = true.
Proof.
  unfold zero_or_nan. rewrite add_spec.
  destruct (Prim2SF x) as [[|]|s| |s m e]; try discriminate;
    destruct (Prim2SF y) as [[|]|s'| |s' m' e']; try discriminate;
    reflexivity.
Qed.

Lemma zon_sqrt x : zero_or_nan x = true -> zero_or_nan (PrimFloat.sqrt x) = true.
Proof.
  unfold zero_or_nan. rewrite sqrt_spec.
  destruct (Prim2SF x) as [s|s| |s m e]; try discriminate; reflexivity.
Qed.

(** 0/0, and anything with a NaN, is a NaN. *)
Lemma zon_div_nan x y :
  zero_or_nan x = true -> zero_or_nan y = true -> is_nan (x / y)%float = true.
Proof.
  unfold zero_or_nan. intros Hx Hy. apply is_nan_sf. rewrite div_spec.
  destruct (Prim2SF x) as [s|s| |s m e]; try discriminate;
    destruct (Prim2SF y) as [s'|s'| |s' m' e']; try discriminate;
    reflexivity.
Qed.

Lemma zon_map2_add a b :
  Forall (fun x => zero_or_nan x = true) a ->
  Forall (fun x => zero_or_nan x = true) b ->
  Forall (fun x => zero_or_nan x = true) (map2 sc_add a b).
Proof.
  intros Ha. revert b. induction Ha as [|x a Hx _ IH]; intros b Hb.
  - constructor.
  - destruct Hb as [|y b Hy Hb]; [constructor|].
    unfold map2. cbn [combine map fst snd]. constructor.
    + now apply zon_add.
    + now apply IH.
Qed.

Lemma zon_sum_axis0 rows acc :
  Forall (Forall (fun x => zero_or_nan x = true)) rows ->
  Forall (fun x => zero_or_nan x = true) acc ->
  Forall (fun x => zero_or_nan x = true) (fold_left (map2 sc_add) rows acc).
Proof.
  intros Hrows. revert acc.
  induction Hrows as [|r rows Hr _ IH]; intros acc Hacc; [exact Hacc|].
  cbn [fold_left]. apply IH. now apply zon_map2_add.
Qed.

Lemma zon_fold_add a x :
  Forall (fun x => zero_or_nan x = true) a ->
  zero_or_nan x = true ->
  zero_or_nan (fold_left sc_add a x) = true.
Proof.
  intros Ha. revert x. induction Ha as [|y a Hy _ IH]; intros x Hx;
    [exact Hx|].
  cbn [fold_left]. apply IH. now apply zon_add.
Qed.

Lemma zon_norm a :
  Forall (fun x => zero_or_nan x = true) a ->
  zero_or_nan (np_linalg_norm a) = true.
Proof.
  intros Ha. unfold np_linalg_norm, np_sum. apply zon_sqrt.
  apply zon_fold_add; [|exact zon_zero].
  unfold map2. induction Ha as [|x a Hx _ IH]; [constructor|].
  cbn [combine map fst snd]. constructor; [|exact IH].
  now apply zon_mul_l.
Qed.

Lemma zon_repeat n : Forall (fun x => zero_or_nan x = true) (repeat 0%float n).
Proof. induction n; constructor; [exact zon_zero | assumption]. Qed.

(** Rows scaled by zero weights hold only zeros and NaNs. *)
Lemma zon_scaled (weights : list float) rows :
  Forall (fun w => is_zero w = true) weights ->
  Forall (Forall (fun x => zero_or_nan x = true))
    (map (fun p => map (sc_mul (fst p)) (snd p)) (combine weights rows)).
Proof.
  intros Hw. apply Forall_forall. intros r Hr.
  apply in_map_iff in Hr as [[w r0] [<- Hin]]. apply in_combine_l in Hin.
  rewrite Forall_forall in Hw. specialize (Hw w Hin). cbn [fst snd].
  apply Forall_forall. intros x Hx. apply in_map_iff in Hx as [y [<- _]].
  apply zon_mul_l. now apply is_zero_zon.
Qed.
End FloatFacts.

(** The direction of the scenario with three seeds, evaluated in binary64:
    [3, 4] has norm 5. *)
Example normalised_noise_float64 :
  normalised_noise [1; 0; 0]%float [[3; 4]; [1; -2]; [5; 7]]%float
  = Ok [3 / 5; 4 / 5]%float.
Proof. vm_compute. reflexivity. Qed.

(** C2 (as the code has it).  For an all-zero weight vector, one weight per
    seed, nothing is raised and there is no fallback: the direction is
    returned, it has the dimension of the noise vectors, and every component
    of it is NaN. *)
Theorem zero_weights_give_nan :
  forall (weights : list float) (all_input_noise : list (list float)),
    Forall (fun w => is_zero w = true) weights ->
    length weights = length all_input_noise ->
    rectangular all_input_noise = true ->
    exists v : list float,
      normalised_noise weights all_input_noise = Ok v /\
      length v = ncols all_input_noise /\
      Forall (fun x => is_nan x = true) v.
Proof.
  intros weights noise Hzero Hlen Hrect.
  destruct (normalised_noise_shape weights noise Hlen Hrect)
    as [ws [Hws [Hl Hv]]].
  eexists. split; [exact Hv|]. split; [now rewrite length_map|].
  assert (Hzon : Forall (fun x => zero_or_nan x = true) ws).
  { unfold weighted_sum, weighted_noise in Hws.
    rewrite Hlen, Nat.eqb_refl in Hws. cbn [bind] in Hws.
    injection Hws as <-. unfold np_sum_axis0.
    apply zon_sum_axis0; [now apply zon_scaled | apply zon_repeat]. }
  pose proof (zon_norm ws Hzon) as Hnorm.
  apply Forall_forall. intros x Hx. apply in_map_iff in Hx as [y [<- Hy]].
  rewrite Forall_forall in Hzon. apply zon_div_nan; [now apply Hzon | exact Hnorm].
Qed.

Lemma zero_weights_give_nan_witness :
  (Forall (fun w => is_zero w = true) [0; 0; 0; 0]%float /\
   length [0; 0; 0; 0]%float
   = length [[1.5; -0.25]; [0.5; 2]; [-1; 3]; [0.125; 1]]%float /\
   rectangular [[1.5; -0.25]; [0.5; 2]; [-1; 3]; [0.125; 1]]%float = true) /\
  exists v : list float,
    normalised_noise [0; 0; 0; 0]%float
      [[1.5; -0.25]; [0.5; 2]; [-1; 3]; [0.125; 1]]%float = Ok v /\
    length v = ncols [[1.5; -0.25]; [0.5; 2]; [-1; 3]; [0.125; 1]]%float /\
    Forall (fun x => is_nan x = true) v.
Proof.
  assert (H : Forall (fun w => is_zero w = true) [0; 0; 0; 0]%float).
  { repeat constructor. }
  split.
  - split; [exact H | split; reflexivity].
  - apply (zero_weights_give_nan [0; 0; 0; 0]%float
             [[1.5; -0.25]; [0.5; 2]; [-1; 3]; [0.125; 1]]%float);
      [exact H | reflexivity | reflexivity].
Defined.

(** C2, refuted as stated.  A silent spectrum of 257 zeros is aggregated
    into 4 zero weights; with 4 seeds the direction comes back as a vector of
    NaNs, and no exception is raised. *)
Lemma degenerate_direction_counterexample :
  aggregate (repeat 0%float 257) 4 = Ok [0; 0; 0; 0]%float /\
  normalised_noise [0; 0; 0; 0]%float
    [[1.5; -0.25]; [0.5; 2]; [-1; 3]; [0.125; 1]]%float
  = Ok [nan; nan] /\
  is_nan nan = true.
Proof.
  repeat split; vm_compute; reflexivity.
Qed.

(** * The first seed alone, in binary64 *)

Section FirstSeedFacts.
Implicit Types (x y z : float).

Lemma digits_shift52 (m : positive) :
  SpecFloat.Zdigits2 (Zpos (Pos.mul 4503599627370496 m))
  = (Zpos (SpecFloat.digits2_pos m) + 52)%Z.
Proof. cbn [Pos.mul SpecFloat.Zdigits2 SpecFloat.digits2_pos]. lia. Qed.

Lemma bounded_inv (m : positive) (e : Z) :
  SpecFloat.bounded prec emax m e = true ->
  SpecFloat.fexp prec emax (Zpos (SpecFloat.digits2_pos m) + e) = e /\
  (e <=? emax - prec)%Z = true.
Proof.
  unfold SpecFloat.bounded, SpecFloat.canonical_mantissa. intros H.
  apply andb_true_iff in H as [H1 H2]. apply Z.eqb_eq in H1. now split.
Qed.

(** The product of 1 = 2^52 * 2^-52 and a binary64 number is computed with
    a mantissa 52 bits too long; the rounding shifts it back and finds
    nothing to round. *)
Lemma SFmul_one_l (s : bool) (m : positive) (e : Z) :
  SpecFloat.bounded prec emax m e = true ->
  SF64mul (S754_finite false 4503599627370496 (-52)) (S754_finite s m e)
  = S754_finite s m e.
Proof.
  intros Hb. destruct (bounded_inv m e Hb) as [Hf Hle].
  unfold SF64mul, SpecFloat.SFmul, SpecFloat.binary_round_aux,
    SpecFloat.shr_fexp.
  rewrite digits_shift52.
  replace (Z.pos (SpecFloat.digits2_pos m) + 52 + (-52 + e))%Z
    with (Z.pos (SpecFloat.digits2_pos m) + e)%Z by lia.
  rewrite Hf.
  replace (e - (-52 + e))%Z with 52%Z by lia.
  cbn [SpecFloat.shr SpecFloat.shr_record_of_loc SpecFloat.iter_pos Pos.mul
       SpecFloat.shr_1 orb].
  cbn [SpecFloat.shr_m SpecFloat.shr_r SpecFloat.shr_s
       SpecFloat.loc_of_shr_record SpecFloat.round_nearest_even
       SpecFloat.Zdigits2].
  replace (-52 + e + 52)%Z with e by lia.
  rewrite Hf, Z.sub_diag. cbn [SpecFloat.shr SpecFloat.shr_m xorb].
  now rewrite Hle.
Qed.

(** Multiplying by 1.0 is exact. *)
Lemma mul_one_l x : (1 * x)%float = x.
Proof.
  apply Prim2SF_inj. rewrite mul_spec.
  change (Prim2SF 1) with (S754_finite false 4503599627370496 (-52)).
  pose proof (Prim2SF_valid x) as Hv.
  destruct (Prim2SF x) as [s|s| |s m e]; try reflexivity.
  now apply SFmul_one_l.
Qed.

(** Zero times a finite number is a zero. *)
Lemma mul_zero_finite y :
  is_finite y = true -> exists s, Prim2SF (0 * y)%float = S754_zero s.
Proof.
  intros H. rewrite mul_spec. change (Prim2SF 0) with (S754_zero false).
  unfold is_finite, is_nan, is_infinity in H.
  rewrite !eqb_spec, abs_spec in H.
  change (Prim2SF infinity) with (S754_infinity false) in H.
  destruct (Prim2SF y) as [s|s| |s m e].
  - eexists. reflexivity.
  - destruct s; discriminate H.
  - discriminate H.
  - eexists. reflexivity.
Qed.



(** The same component with the additions taken in other orders: from the
    first row on, without a zero to start from, and from the last row
    back. *)
Lemma first_seed_component_orders x y z :
  classify x <> NZero ->
  is_finite y = true ->
  is_finite z = true ->
  (1 * x + 0 * y + 0 * z)%float = x /\
  (1 * x + (0 * y + 0 * z))%float = x /\
  (0 * z + 0 * y + 1 * x)%float = x.
Proof.
  intros Hx Hy Hz. rewrite mul_one_l.
  destruct (mul_zero_finite y Hy) as [sy Hsy].
  destruct (mul_zero_finite z Hz) as [sz Hsz].
  rewrite classify_spec in Hx.
  repeat split; apply Prim2SF_inj; rewrite !add_spec, Hsy, Hsz;
    (destruct (Prim2SF x) as [[|]|s| |s m e];
     [ exfalso; now apply Hx
     | destruct sy, sz; reflexivity
     | destruct s, sy, sz; reflexivity
     | destruct sy, sz; reflexivity
     | destruct sy, sz; reflexivity ]).
Qed.
End FirstSeedFacts.




(** * Further properties of the callback *)

Lemma to_N_inj (b c : byte) : Byte.to_N b = Byte.to_N c -> b = c.
Proof.
  intros H. pose proof (Byte.of_to_N b) as Hb. rewrite H, Byte.of_to_N in Hb.
  now injection Hb.
Qed.

Lemma int32_of_le_inj b0 b1 b2 b3 c0 c1 c2 c3 :
  int32_of_le b0 b1 b2 b3 = int32_of_le c0 c1 c2 c3 ->
  b0 = c0 /\ b1 = c1 /\ b2 = c2 /\ b3 = c3.
Proof.
  unfold int32_of_le.
  pose proof (Byte.to_N_bounded b0). pose proof (Byte.to_N_bounded b1).
  pose proof (Byte.to_N_bounded b2). pose proof (Byte.to_N_bounded b3).
  pose proof (Byte.to_N_bounded c0). pose proof (Byte.to_N_bounded c1).
  pose proof (Byte.to_N_bounded c2). pose proof (Byte.to_N_bounded c3).
  change (2 ^ 8)%Z with 256%Z. change (2 ^ 16)%Z with 65536%Z.
  change (2 ^ 24)%Z with 16777216%Z. change (2 ^ 31)%Z with 2147483648%Z.
  change (2 ^ 32)%Z with 4294967296%Z.
  intros Heq.
  assert (Hn : (Z.of_N (to_N b0) = Z.of_N (to_N c0) /\
                Z.of_N (to_N b1) = Z.of_N (to_N c1) /\
                Z.of_N (to_N b2) = Z.of_N (to_N c2) /\
                Z.of_N (to_N b3) = Z.of_N (to_N c3))%Z).
  { destruct (Z.ltb_spec
      (Z.of_N (to_N b0) + 256 * Z.of_N (to_N b1) + 65536 * Z.of_N (to_N b2)
       + 16777216 * Z.of_N (to_N b3)) 2147483648);
    destruct (Z.ltb_spec
      (Z.of_N (to_N c0) + 256 * Z.of_N (to_N c1) + 65536 * Z.of_N (to_N c2)
       + 16777216 * Z.of_N (to_N c3)) 2147483648); lia. }
  destruct Hn as [H0' [H1' [H2' H3']]].
  repeat split; apply to_N_inj, N2Z.inj; assumption.
Qed.

Lemma unpack_ints_inj n bs bs' :
  length bs = 4 * n -> length bs' = 4 * n ->
  unpack_ints n bs = unpack_ints n bs' -> bs = bs'.
Proof.
  revert bs bs'. induction n as [|n IH]; intros bs bs' Hl Hl' Heq.
  - destruct bs, bs'; try discriminate; reflexivity.
  - destruct bs as [|b0 [|b1 [|b2 [|b3 rest]]]]; simpl in Hl; try lia.
    destruct bs' as [|c0 [|c1 [|c2 [|c3 rest']]]]; simpl in Hl'; try lia.
    cbn [unpack_ints] in Heq. injection Heq as Hhead Htail.
    apply int32_of_le_inj in Hhead as [-> [-> [-> ->]]].
    rewrite (IH rest rest'); [reflexivity | lia | lia | exact Htail].
Qed.

Lemma unpack_ints_app n m a b :
  length a = 4 * n ->
  unpack_ints (n + m) (a ++ b) = unpack_ints n a ++ unpack_ints m b.
Proof.
  revert a. induction n as [|n IH]; intros a Hl.
  - destruct a; [reflexivity | discriminate].
  - destruct a as [|b0 [|b1 [|b2 [|b3 rest]]]]; simpl in Hl; try lia.
    cbn [Nat.add app unpack_ints]. rewrite IH by lia. reflexivity.
Qed.

Lemma combine_app_eq (x1 x2 y1 y2 : list Z) :
  length x1 = length y1 ->
  combine (x1 ++ x2) (y1 ++ y2) = combine x1 y1 ++ combine x2 y2.
Proof.
  revert y1. induction x1 as [|a x1 IH]; intros [|b y1] H;
    try discriminate H; [reflexivity|].
  cbn [app combine]. rewrite IH; [reflexivity | now injection H].
Qed.

Lemma unpack_bytes_concat (a b : list byte) (n m : nat) :
  length a = 4 * n ->
  length b = 4 * m ->
  unpack_bytes (a ++ b) (n + m)
  = (x <- unpack_bytes a n ;; y <- unpack_bytes b m ;; Ok (x ++ y)).
Proof.
  intros Ha Hb. unfold unpack_bytes.
  rewrite length_app, Ha, Hb.
  replace (4 * n + 4 * m) with (4 * (n + m)) by lia.
  rewrite !Nat.eqb_refl. cbn [bind]. now rewrite unpack_ints_app.
Qed.

(** X1.  [unpack_bytes] accepts a buffer exactly when it holds four bytes
    per integer; it then returns [int_count] integers, each a signed 32-bit
    value.  Any other size raises the [struct] error. *)
Theorem unpack_bytes_outcomes :
  forall (byte_string : list byte) (int_count : nat),
    (length byte_string = 4 * int_count /\
     exists ints,
       unpack_bytes byte_string int_count = Ok ints /\
       length ints = int_count /\
       Forall int32 ints) \/
    (length byte_string <> 4 * int_count /\
     unpack_bytes byte_string int_count = Raise StructError).
Proof.
  intros bs n. unfold unpack_bytes.
  destruct (Nat.eqb_spec (length bs) (4 * n)) as [Heq|Hne].
  - left. split; [exact Heq|]. eexists. split; [reflexivity|].
    split; [now apply unpack_ints_length | apply unpack_ints_int32].
  - right. now split.
Qed.

(** X2.  Decoding loses nothing: two buffers that unpack to the same
    integers are the same bytes. *)
Theorem unpack_bytes_injective :
  forall (bs bs' : list byte) (int_count : nat) (ints : list Z),
    unpack_bytes bs int_count = Ok ints ->
    unpack_bytes bs' int_count = Ok ints ->
    bs = bs'.
Proof.
  intros bs bs' n ints. unfold unpack_bytes.
  destruct (Nat.eqb_spec (length bs) (4 * n)) as [Hl|]; [|discriminate].
  destruct (Nat.eqb_spec (length bs') (4 * n)) as [Hl'|]; [|discriminate].
  intros [= H] [= H']. apply (unpack_ints_inj n); congruence.
Qed.

Lemma unpack_bytes_injective_witness :
  (unpack_bytes [xfe; xff; xff; xff; x00; x00; x00; x80] 2
   = Ok [-2; -2147483648]%Z /\
   unpack_bytes [xfe; xff; xff; xff; x00; x00; x00; x80] 2
   = Ok [-2; -2147483648]%Z) /\
  [xfe; xff; xff; xff; x00; x00; x00; x80]
  = [xfe; xff; xff; xff; x00; x00; x00; x80].
Proof.
  split.
  - split; reflexivity.
  - apply (unpack_bytes_injective
             [xfe; xff; xff; xff; x00; x00; x00; x80]
             [xfe; xff; xff; xff; x00; x00; x00; x80] 2
             [-2; -2147483648]%Z); reflexivity.
Defined.

(** X3.  Decoding is local to each group of four bytes: unpacking two
    well-sized buffers laid end to end gives the integers of the first
    followed by those of the second. *)
Theorem unpack_bytes_app :
  forall (a b : list byte) (n m : nat),
    length a = 4 * n ->
    length b = 4 * m ->
    unpack_bytes (a ++ b) (n + m)
    = (x <- unpack_bytes a n ;; y <- unpack_bytes b m ;; Ok (x ++ y)).
Proof.
  intros a b n m Ha Hb. now apply unpack_bytes_concat.
Qed.

Lemma unpack_bytes_app_witness :
  (length [x01; x00; x00; x00] = 4 * 1 /\
   length [xff; xff; xff; xff; x02; x00; x00; x00] = 4 * 2) /\
  unpack_bytes ([x01; x00; x00; x00]
                ++ [xff; xff; xff; xff; x02; x00; x00; x00]) (1 + 2)
  = (x <- unpack_bytes [x01; x00; x00; x00] 1 ;;
     y <- unpack_bytes [xff; xff; xff; xff; x02; x00; x00; x00] 2 ;;
     Ok (x ++ y)).
Proof.
  split.
  - split; reflexivity.
  - apply (unpack_bytes_app [x01; x00; x00; x00]
             [xff; xff; xff; xff; x02; x00; x00; x00] 1 2); reflexivity.
Defined.

Lemma unpack_bytes_inv bs n ints :
  unpack_bytes bs n = Ok ints ->
  length bs = 4 * n /\ ints = unpack_ints n bs /\ length ints = n /\
  Forall int32 ints.
Proof.
  unfold unpack_bytes.
  destruct (Nat.eqb_spec (length bs) (4 * n)) as [Hl|]; [|discriminate].
  intros [= <-]. repeat split; try assumption.
  - now apply unpack_ints_length.
  - apply unpack_ints_int32.
Qed.

(** X4.  The callback either stores every frame of the cycle or none.  With
    both port buffers of four bytes per frame it pushes the zipped pairs on
    the left of the deque, the last pair leftmost, and leaves the frames
    already buffered as they are; with a buffer of another size it raises
    before the deque is touched. *)
Theorem process_outcomes :
  forall (raw_audio : deque sample_frame) (in_1 in_2 : list byte)
         (frame_count : nat),
    (length in_1 = 4 * frame_count /\ length in_2 = 4 * frame_count /\
     exists buffer_one buffer_two,
       unpack_bytes in_1 frame_count = Ok buffer_one /\
       unpack_bytes in_2 frame_count = Ok buffer_two /\
       process raw_audio in_1 in_2 frame_count
       = Ok (rev (combine buffer_one buffer_two) ++ raw_audio) /\
       length (combine buffer_one buffer_two) = frame_count) \/
    ((length in_1 <> 4 * frame_count \/ length in_2 <> 4 * frame_count) /\
     process raw_audio in_1 in_2 frame_count = Raise StructError).
Proof.
  intros d in_1 in_2 n. unfold process, unpack_bytes.
  destruct (Nat.eqb_spec (length in_1) (4 * n)) as [H1|H1]; cbn [bind].
  - destruct (Nat.eqb_spec (length in_2) (4 * n)) as [H2|H2]; cbn [bind].
    + left. repeat split; try assumption.
      exists (unpack_ints n in_1), (unpack_ints n in_2).
      repeat split.
      * now rewrite appendleft_all_rev.
      * rewrite length_combine, !unpack_ints_length by assumption. lia.
    + right. split; [now right | reflexivity].
  - right. split; [now left | reflexivity].
Qed.

(** X5.  How JACK cuts the stream into cycles cannot be seen in the buffer:
    two callbacks in a row leave the deque as one callback on the
    concatenated port buffers does. *)
Theorem process_process :
  forall (raw_audio : deque sample_frame) (a1 b1 a2 b2 : list byte)
         (n m : nat),
    length a1 = 4 * n -> length b1 = 4 * n ->
    length a2 = 4 * m -> length b2 = 4 * m ->
    (raw_audio' <- process raw_audio a1 b1 n ;; process raw_audio' a2 b2 m)
    = process raw_audio (a1 ++ a2) (b1 ++ b2) (n + m).
Proof.
  intros d a1 b1 a2 b2 n m Ha1 Hb1 Ha2 Hb2. unfold process.
  rewrite !unpack_bytes_concat by assumption. unfold unpack_bytes.
  rewrite Ha1, Hb1, Ha2, Hb2, !Nat.eqb_refl. cbn [bind]. f_equal.
  rewrite combine_app_eq by (now rewrite !unpack_ints_length).
  unfold appendleft_all. now rewrite fold_left_app.
Qed.

Lemma process_process_witness :
  (length [x01; x00; x00; x00] = 4 * 1 /\
   length [x0a; x00; x00; x00] = 4 * 1 /\
   length [x02; x00; x00; x00; x03; x00; x00; x00] = 4 * 2 /\
   length [x14; x00; x00; x00; x1e; x00; x00; x00] = 4 * 2) /\
  (raw_audio' <- process [] [x01; x00; x00; x00] [x0a; x00; x00; x00] 1 ;;
   process raw_audio' [x02; x00; x00; x00; x03; x00; x00; x00]
     [x14; x00; x00; x00; x1e; x00; x00; x00] 2)
  = process []
      ([x01; x00; x00; x00] ++ [x02; x00; x00; x00; x03; x00; x00; x00])
      ([x0a; x00; x00; x00] ++ [x14; x00; x00; x00; x1e; x00; x00; x00])
      (1 + 2).
Proof.
  split.
  - repeat split.
  - apply (process_process [] [x01; x00; x00; x00] [x0a; x00; x00; x00]
             [x02; x00; x00; x00; x03; x00; x00; x00]
             [x14; x00; x00; x00; x1e; x00; x00; x00] 1 2); reflexivity.
Defined.

Lemma extract_all (d : deque sample_frame) (n : nat) :
  0 < n -> length d = n -> Forall int32_frame d ->
  extract d n = Ready (Ok (map (fun p => (fst p + snd p)%Z) (rev d), [])).
Proof.
  intros Hpos Hlen Hrange. rewrite extract_enough by lia.
  rewrite Hlen, Nat.sub_diag. cbn [skipn firstn].
  rewrite audio_mono_exact; [reflexivity | now apply Forall_rev].
Qed.

(** X6.  From the port buffers to the mono frame: one callback of
    [frame_count > 0] frames into the empty deque, then an extraction of
    [frame_count] frames, yields sample [i] of port one plus sample [i] of
    port two for each [i], in the order of the port buffers, and empties the
    deque. *)
Theorem process_then_extract :
  forall (in_1 in_2 : list byte) (frame_count : nat)
         (buffer_one buffer_two : list Z),
    0 < frame_count ->
    unpack_bytes in_1 frame_count = Ok buffer_one ->
    unpack_bytes in_2 frame_count = Ok buffer_two ->
    exists raw_audio,
      process [] in_1 in_2 frame_count = Ok raw_audio /\
      extract raw_audio frame_count
      = Ready (Ok (map (fun p => (fst p + snd p)%Z)
                       (combine buffer_one buffer_two), [])).
Proof.
  intros in_1 in_2 n b1 b2 Hpos H1 H2.
  destruct (unpack_bytes_inv _ _ _ H1) as [_ [_ [Hl1 Hr1]]].
  destruct (unpack_bytes_inv _ _ _ H2) as [_ [_ [Hl2 Hr2]]].
  unfold process. rewrite H1, H2. cbn [bind]. eexists. split; [reflexivity|].
  rewrite appendleft_all_rev, app_nil_r.
  rewrite <- (rev_involutive (combine b1 b2)) at 2.
  apply extract_all; [exact Hpos | | ].
  - rewrite length_rev, length_combine. lia.
  - apply Forall_rev. now apply combine_int32.
Qed.

Lemma process_then_extract_witness :
  (0 < 2 /\
   unpack_bytes [x01; x00; x00; x00; xff; xff; xff; xff] 2 = Ok [1; -1]%Z /\
   unpack_bytes [x0a; x00; x00; x00; x14; x00; x00; x00] 2 = Ok [10; 20]%Z) /\
  exists raw_audio,
    process [] [x01; x00; x00; x00; xff; xff; xff; xff]
      [x0a; x00; x00; x00; x14; x00; x00; x00] 2 = Ok raw_audio /\
    extract raw_audio 2
    = Ready (Ok (map (fun p => (fst p + snd p)%Z)
                     (combine [1; -1]%Z [10; 20]%Z), [])).
Proof.
  split.
  - split; [lia | split; reflexivity].
  - apply (process_then_extract [x01; x00; x00; x00; xff; xff; xff; xff]
             [x0a; x00; x00; x00; x14; x00; x00; x00] 2
             [1; -1]%Z [10; 20]%Z); [lia | reflexivity | reflexivity].
Defined.

Lemma combine_diag (b : list Z) :
  Forall (fun p : sample_frame => fst p = snd p) (combine b b).
Proof. induction b as [|z b IH]; simpl; constructor; [reflexivity | exact IH]. Qed.

(** X7.  [visualise] connects both input ports to the same output, so both
    port buffers of a cycle hold the same bytes.  Then every frame stored has
    equal channels, and every mono sample extracted is twice the channel
    sample. *)
Theorem process_same_port :
  forall (raw_audio raw_audio' : deque sample_frame) (port : list byte)
         (frame_count : nat),
    Forall int32_frame raw_audio ->
    Forall (fun p => fst p = snd p) raw_audio ->
    process raw_audio port port frame_count = Ok raw_audio' ->
    Forall (fun p => fst p = snd p) raw_audio' /\
    forall samples_per_frame mono rest,
      extract raw_audio' samples_per_frame = Ready (Ok (mono, rest)) ->
      exists popped,
        pop_frames samples_per_frame raw_audio' = Ok (popped, rest) /\
        mono = map (fun p => (2 * fst p)%Z) popped.
Proof.
  intros d d' port n Hrange Heq Hproc.
  pose proof (process_int32 _ _ _ _ _ Hrange Hproc) as Hrange'.
  assert (Heq' : Forall (fun p : sample_frame => fst p = snd p) d').
  { unfold process in Hproc.
    destruct (unpack_bytes port n) as [b|]; cbn [bind] in Hproc;
      [|discriminate].
    injection Hproc as <-. rewrite appendleft_all_rev.
    apply Forall_app. split; [|exact Heq]. apply Forall_rev, combine_diag. }
  split; [exact Heq'|].
  intros spf mono rest Hext.
  apply extract_inv in Hext as [audio [Hpop ->]].
  exists audio. split; [exact Hpop|].
  apply pop_frames_inv in Hpop as [_ Hsplit]. rewrite Hsplit in Hrange', Heq'.
  apply Forall_app in Hrange' as [_ Hr]. apply Forall_app in Heq' as [_ He].
  apply Forall_rev in Hr, He. rewrite rev_involutive in Hr, He.
  rewrite audio_mono_exact by exact Hr.
  apply map_ext_in. intros p Hp. rewrite Forall_forall in He.
  rewrite <- (He p Hp). lia.
Qed.

Lemma process_same_port_witness :
  (Forall int32_frame [(7, 7)%Z] /\
   Forall (fun p : sample_frame => fst p = snd p) [(7, 7)%Z] /\
   process [(7, 7)%Z] [x01; x00; x00; x00; xfd; xff; xff; xff]
     [x01; x00; x00; x00; xfd; xff; xff; xff] 2
   = Ok [(-3, -3); (1, 1); (7, 7)]%Z) /\
  Forall (fun p : sample_frame => fst p = snd p)
    [(-3, -3); (1, 1); (7, 7)]%Z /\
  forall samples_per_frame mono rest,
    extract [(-3, -3); (1, 1); (7, 7)]%Z samples_per_frame
    = Ready (Ok (mono, rest)) ->
    exists popped,
      pop_frames samples_per_frame [(-3, -3); (1, 1); (7, 7)]%Z
      = Ok (popped, rest) /\
      mono = map (fun p => (2 * fst p)%Z) popped.
Proof.
  assert (H1 : Forall int32_frame [(7, 7)%Z]).
  { repeat constructor; simpl; lia. }
  assert (H2 : Forall (fun p : sample_frame => fst p = snd p) [(7, 7)%Z]).
  { repeat constructor. }
  split.
  - split; [exact H1 | split; [exact H2 | reflexivity]].
  - apply (process_same_port [(7, 7)%Z] [(-3, -3); (1, 1); (7, 7)]%Z
             [x01; x00; x00; x00; xfd; xff; xff; xff] 2);
      [exact H1 | exact H2 | reflexivity].
Defined.

(** * Further properties of the extraction *)

Lemma extract_inv_pos audio_buffer samples_per_frame mono rest :
  extract audio_buffer samples_per_frame = Ready (Ok (mono, rest)) ->
  0 < samples_per_frame /\ samples_per_frame <= length audio_buffer.
Proof.
  unfold extract.
  destruct (Nat.ltb_spec (length audio_buffer) samples_per_frame);
    [discriminate|].
  destruct samples_per_frame; [discriminate | lia].
Qed.

(** X8.  Consecutive cycles take consecutive stretches of the stream: an
    extraction of [n] frames followed by one of [m] frames gives the mono
    frames that a single extraction of [n + m] frames gives, cut after [n]
    samples, and leaves the same buffer. *)
Theorem extract_extract :
  forall (d d1 d2 : deque sample_frame) (n m : nat) (mono1 mono2 : list Z),
    extract d n = Ready (Ok (mono1, d1)) ->
    extract d1 m = Ready (Ok (mono2, d2)) ->
    extract d (n + m) = Ready (Ok (mono1 ++ mono2, d2)) /\
    length mono1 = n.
Proof.
  intros d d1 d2 n m mono1 mono2 H1 H2.
  destruct (extract_inv_pos _ _ _ _ H1) as [Hn _].
  apply extract_inv in H1 as [a1 [Hp1 ->]].
  apply extract_inv in H2 as [a2 [Hp2 ->]].
  apply pop_frames_inv in Hp1 as [Hl1 ->].
  apply pop_frames_inv in Hp2 as [Hl2 ->].
  assert (Hpop : pop_frames (n + m) ((d2 ++ rev a2) ++ rev a1)
                 = Ok (a1 ++ a2, d2)).
  { rewrite <- app_assoc, <- rev_app_distr, <- Hl1, <- Hl2, <- length_app.
    apply pop_frames_rev. }
  split; [|unfold audio_mono; now rewrite length_map].
  unfold extract. rewrite Hpop. cbn [bind].
  destruct (Nat.ltb_spec (length ((d2 ++ rev a2) ++ rev a1)) (n + m)) as [Hlt|_].
  - rewrite !length_app, !length_rev in Hlt. lia.
  - destruct a1 as [|p a1]; [simpl in Hl1; lia|].
    unfold audio_mono. now rewrite map_app.
Qed.

Lemma extract_extract_witness :
  (extract [(4, 40); (3, 30); (2, 20); (1, 10)]%Z 1
   = Ready (Ok ([11]%Z, [(4, 40); (3, 30); (2, 20)]%Z)) /\
   extract [(4, 40); (3, 30); (2, 20)]%Z 2
   = Ready (Ok ([22; 33]%Z, [(4, 40)%Z]))) /\
  extract [(4, 40); (3, 30); (2, 20); (1, 10)]%Z (1 + 2)
  = Ready (Ok ([11]%Z ++ [22; 33]%Z, [(4, 40)%Z])) /\
  length [11]%Z = 1.
Proof.
  split.
  - split; reflexivity.
  - apply (extract_extract [(4, 40); (3, 30); (2, 20); (1, 10)]%Z
             [(4, 40); (3, 30); (2, 20)]%Z [(4, 40)%Z] 1 2 [11]%Z [22; 33]%Z);
      reflexivity.
Defined.

(** X9.  The three outcomes of a pass through the extraction: it sleeps
    exactly when fewer than [samples_per_frame] frames are buffered; with
    [samples_per_frame = 0] it never sleeps and numpy rejects the empty
    array; otherwise it returns a mono frame of [samples_per_frame] samples
    and a buffer shorter by as many.  Popping from an empty deque does not
    occur. *)
Theorem extract_outcomes :
  forall (audio_buffer : deque sample_frame) (samples_per_frame : nat),
    (length audio_buffer < samples_per_frame /\
     extract audio_buffer samples_per_frame = Starved) \/
    (samples_per_frame = 0 /\
     extract audio_buffer samples_per_frame = Ready (Raise AxisError)) \/
    (0 < samples_per_frame <= length audio_buffer /\
     exists mono rest,
       extract audio_buffer samples_per_frame = Ready (Ok (mono, rest)) /\
       length mono = samples_per_frame /\
       length rest + samples_per_frame = length audio_buffer).
Proof.
  intros d n.
  destruct (Nat.lt_ge_cases (length d) n) as [Hlt|Hge].
  - left. split; [exact Hlt | now apply extract_starved].
  - right. destruct n as [|n].
    + left. split; [reflexivity|]. unfold extract.
      destruct (Nat.ltb_spec (length d) 0); [lia | reflexivity].
    + right. split; [lia|]. rewrite extract_enough by lia.
      eexists. eexists. split; [reflexivity|]. split.
      * unfold audio_mono. rewrite length_map, length_rev, length_skipn. lia.
      * rewrite length_firstn. lia.
Qed.

(** * The unsynchronised length check *)

Section RaceFacts.
Context {T : Type}.

(** Pops for which the buffer held enough frames at the start succeed,
    whatever is appended in between, and take the oldest frames. *)
Lemma run_enough (tr : list (event T)) (d : deque T) (popped : list T) :
  pops tr <= length d ->
  run tr d popped
  = Ok (rev (appended tr) ++ firstn (length d - pops tr) d,
        popped ++ rev (skipn (length d - pops tr) d)).
Proof.
  revert d popped. induction tr as [|[x|] tr IH]; intros d popped Hle.
  - cbn [run pops appended rev app]. rewrite Nat.sub_0_r, firstn_all, skipn_all.
    now rewrite app_nil_r.
  - cbn [run pops appended] in *. unfold appendleft.
    rewrite IH by (cbn [length]; lia). cbn [length rev].
    replace (S (length d) - pops tr) with (S (length d - pops tr)) by lia.
    cbn [firstn skipn]. now rewrite <- app_assoc.
  - cbn [run pops appended] in *.
    destruct d as [|y d0 _] using rev_ind; [simpl in Hle; lia|].
    rewrite length_app in *. cbn [length] in *.
    rewrite pop_snoc. cbn [bind]. rewrite IH by lia.
    replace (length d0 + 1 - S (pops tr)) with (length d0 - pops tr) by lia.
    rewrite firstn_app, skipn_app.
    replace (length d0 - pops tr - length d0) with 0 by lia.
    cbn [firstn skipn]. rewrite app_nil_r, rev_app_distr. cbn [rev app].
    now rewrite <- app_assoc.
Qed.
End RaceFacts.

(** X10.  The consumer checks the length and then pops without a lock.
    If [n] frames are buffered at the check, its next [n] pops succeed under
    every interleaving with the callback's appends, and they return the [n]
    frames that were oldest at the check, oldest first; frames arriving in
    between stay in the buffer. *)
Theorem check_then_pop :
  forall (tr : list (event sample_frame)) (d : deque sample_frame),
    pops tr <= length d ->
    run tr d []
    = Ok (rev (appended tr) ++ firstn (length d - pops tr) d,
          rev (skipn (length d - pops tr) d)).
Proof.
  intros tr d Hle. now rewrite run_enough.
Qed.

Lemma check_then_pop_witness :
  pops [Pop; Appendleft (4, 40)%Z; Pop] <= length [(3, 30); (2, 20); (1, 10)]%Z /\
  run [Pop; Appendleft (4, 40)%Z; Pop] [(3, 30); (2, 20); (1, 10)]%Z []
  = Ok (rev (appended [Pop; Appendleft (4, 40)%Z; Pop])
        ++ firstn (length [(3, 30); (2, 20); (1, 10)]%Z
                   - pops [Pop; Appendleft (4, 40)%Z; Pop])
                  [(3, 30); (2, 20); (1, 10)]%Z,
        rev (skipn (length [(3, 30); (2, 20); (1, 10)]%Z
                    - pops [Pop; Appendleft (4, 40)%Z; Pop])
                   [(3, 30); (2, 20); (1, 10)]%Z)).
Proof.
  split.
  - simpl; lia.
  - apply (check_then_pop [Pop; Appendleft (4, 40)%Z; Pop]
             [(3, 30); (2, 20); (1, 10)]%Z). simpl; lia.
Defined.

(** * Further properties of the aggregation and of the cycle *)

Section CycleOutcomes.
Context {A : Type} {SA : Scalar A}.
Variable signal_welch : list Z -> Z -> nat -> result (list A).

Lemma aggregate_cases (psd : list A) (bin_count : nat) :
  (bin_count = 0 /\ aggregate psd bin_count = Raise ZeroDivisionError) \/
  (0 < bin_count /\
   exists weights,
     aggregate psd bin_count = Ok weights /\ length weights = bin_count).
Proof.
  destruct bin_count as [|n].
  - left. now split.
  - right. split; [lia|]. eexists. split; [apply aggregate_ok; lia|].
    now rewrite length_map, groups_of_length.
Qed.

(** X11.  What one pass through the loop of the generator does, case by
    case.  It sleeps when frames are missing.  Once the frames are there:
    no frame count gives numpy's axis error; no bin gives a division by
    zero; otherwise the spectral estimator is called on the mono frame with
    segments of [samples_per_frame / bin_count] samples, and either its
    exception comes through or one weight per bin is yielded.  The shape
    assertion never fails. *)
Theorem periodogram_cycle_outcomes :
  forall (audio_buffer : deque sample_frame) (samples_per_frame : nat)
         (sample_rate : Z) (bin_count : nat),
    (length audio_buffer < samples_per_frame /\
     periodogram_cycle signal_welch audio_buffer samples_per_frame
       sample_rate bin_count = Starved) \/
    (samples_per_frame = 0 /\
     periodogram_cycle signal_welch audio_buffer samples_per_frame
       sample_rate bin_count = Ready (Raise AxisError)) \/
    (0 < samples_per_frame <= length audio_buffer /\ bin_count = 0 /\
     periodogram_cycle signal_welch audio_buffer samples_per_frame
       sample_rate bin_count = Ready (Raise ZeroDivisionError)) \/
    (0 < samples_per_frame <= length audio_buffer /\ 0 < bin_count /\
     exists mono rest,
       extract audio_buffer samples_per_frame = Ready (Ok (mono, rest)) /\
       length mono = samples_per_frame /\
       ((exists e,
           signal_welch mono sample_rate (samples_per_frame / bin_count)
           = Raise e /\
           periodogram_cycle signal_welch audio_buffer samples_per_frame
             sample_rate bin_count = Ready (Raise e)) \/
        (exists psd weights,
           signal_welch mono sample_rate (samples_per_frame / bin_count)
           = Ok psd /\
           aggregate psd bin_count = Ok weights /\
           length weights = bin_count /\
           periodogram_cycle signal_welch audio_buffer samples_per_frame
             sample_rate bin_count = Ready (Ok (weights, rest))))).
Proof.
  intros d spf sr bc. unfold periodogram_cycle.
  destruct (Nat.lt_ge_cases (length d) spf) as [Hlt|Hge].
  { left. split; [exact Hlt | now rewrite extract_starved]. }
  right. destruct spf as [|n].
  { left. split; [reflexivity|]. unfold extract.
    destruct (Nat.ltb_spec (length d) 0); [lia | reflexivity]. }
  right. rewrite extract_enough by lia. cbn [bind].
  set (mono := audio_mono (rev (skipn (length d - S n) d))).
  assert (Hmono : length mono = S n).
  { unfold mono, audio_mono. rewrite length_map, length_rev, length_skipn. lia. }
  destruct bc as [|b].
  { left. repeat split; try lia. }
  right. repeat split; try lia.
  exists mono, (firstn (length d - S n) d).
  split; [reflexivity | split; [exact Hmono|]].
  unfold welch_periodogram. rewrite Hmono.
  destruct (signal_welch mono sr (S n / S b)) as [psd|e]; cbn [bind].
  - right. destruct (aggregate_cases psd (S b)) as [[Hz _]|[_ [w [Hw Hl]]]];
      [discriminate|].
    exists psd, w. rewrite Hw. cbn [bind]. repeat split; assumption.
  - left. exists e. split; reflexivity.
Qed.
End CycleOutcomes.

(** X12.  The aggregation fails only when there is no bin: for a positive
    bin count it returns one weight per bin whatever the length of the
    spectrum, the empty spectrum included.  [np.split] never finds an
    uneven division, and the shape assertion never fails. *)
Theorem aggregate_outcomes :
  forall (A : Type) (SA : Scalar A) (psd : list A) (bin_count : nat),
    (bin_count = 0 /\ aggregate psd bin_count = Raise ZeroDivisionError) \/
    (0 < bin_count /\
     exists groups weights,
       aggressive_array_split psd bin_count = Ok groups /\
       length groups = bin_count /\
       aggregate psd bin_count = Ok weights /\
       length weights = bin_count).
Proof.
  intros A SA psd bin_count. destruct bin_count as [|n].
  - left. now split.
  - right. split; [lia|]. eexists. eexists.
    split; [apply aggressive_array_split_ok; lia|].
    split; [apply groups_of_length|].
    split; [apply aggregate_ok; lia|].
    now rewrite length_map, groups_of_length.
Qed.

(** X13.  The remainder never reaches the weights: entries appended to a
    spectrum whose length is a multiple of the bin count, fewer than the bin
    count, change nothing. *)
Theorem aggregate_ignores_tail :
  forall (A : Type) (SA : Scalar A) (psd tail : list A) (bin_count : nat),
    length psd mod bin_count = 0 ->
    length tail < bin_count ->
    aggregate (psd ++ tail) bin_count = aggregate psd bin_count.
Proof.
  intros A SA psd tail bc Hmod Htail.
  assert (Hpos : 0 < bc) by lia.
  pose proof (Nat.Div0.div_mod (length psd) bc) as Hdm.
  rewrite Hmod, Nat.add_0_r in Hdm.
  assert (Hsum : length (psd ++ tail)
                 = bc * (length psd / bc) + length tail)
    by (rewrite length_app; lia).
  assert (Hq : length (psd ++ tail) / bc = length psd / bc)
    by (symmetry; apply (Nat.div_unique _ _ _ (length tail)); assumption).
  assert (Hr : length (psd ++ tail) mod bc = length tail)
    by (symmetry; apply (Nat.mod_unique _ _ (length psd / bc)); assumption).
  rewrite !aggregate_ok by assumption. rewrite Hq, Hr, Hmod, Nat.sub_0_r.
  replace (length (psd ++ tail) - length tail) with (length psd + 0)
    by (rewrite length_app; lia).
  now rewrite firstn_app_2, firstn_all, app_nil_r.
Qed.

Lemma aggregate_ignores_tail_witness :
  (length [1; 2; 4; 8]%float mod 2 = 0 /\ length [16]%float < 2) /\
  aggregate ([1; 2; 4; 8]%float ++ [16]%float) 2
  = aggregate [1; 2; 4; 8]%float 2.
Proof.
  split.
  - split; [reflexivity | simpl; lia].
  - apply (aggregate_ignores_tail float float64 [1; 2; 4; 8]%float
             [16]%float 2); [reflexivity | simpl; lia].
Defined.

Lemma slice_incl {A : Type} (st en : nat) (a : list A) (x : A) :
  In x (firstn (en - st) (skipn st a)) -> In x a.
Proof.
  intros H. rewrite <- (firstn_skipn st a). apply in_or_app. right.
  rewrite <- (firstn_skipn (en - st) (skipn st a)). apply in_or_app. now left.
Qed.

Lemma sigma_nonneg (l : list R) : Forall (fun x => (0 <= x)%R) l -> (0 <= sigma l)%R.
Proof.
  induction 1 as [|x l Hx _ IH]; [unfold sigma; simpl; lra|].
  rewrite sigma_cons. lra.
Qed.

(** X14.  Over exact arithmetic.  A spectrum without negative entries gives
    weights without negative entries. *)
Theorem aggregate_nonnegative :
  forall (psd weights : list R) (bin_count : nat),
    Forall (fun x => (0 <= x)%R) psd ->
    aggregate psd bin_count = Ok weights ->
    Forall (fun w => (0 <= w)%R) weights.
Proof.
  intros psd weights bc Hpsd Hagg.
  destruct (Nat.eq_dec bc 0) as [->|Hnz]; [discriminate Hagg|].
  rewrite aggregate_ok in Hagg by lia. injection Hagg as <-.
  apply Forall_forall. intros w Hw.
  apply in_map_iff in Hw as [g [<- Hg]]. rewrite np_sum_real.
  apply sigma_nonneg, Forall_forall. intros x Hx.
  unfold groups_of in Hg. apply in_map_iff in Hg as [i [<- _]].
  unfold slice in Hx. apply slice_incl in Hx.
  rewrite Forall_forall in Hpsd. apply Hpsd.
  rewrite <- (firstn_skipn (length psd - length psd mod bc) psd).
  apply in_or_app. now left.
Qed.

Lemma aggregate_nonnegative_witness :
  (Forall (fun x => (0 <= x)%R) [1; 0; 4; 8; 16]%R /\
   aggregate [1; 0; 4; 8; 16]%R 2 = Ok (map np_sum [[1; 0]; [4; 8]]%R)) /\
  Forall (fun w => (0 <= w)%R) (map np_sum [[1; 0]; [4; 8]]%R).
Proof.
  assert (H : Forall (fun x => (0 <= x)%R) [1; 0; 4; 8; 16]%R).
  { repeat constructor; lra. }
  split.
  - split; [exact H | reflexivity].
  - apply (aggregate_nonnegative [1; 0; 4; 8; 16]%R
             (map np_sum [[1; 0]; [4; 8]]%R) 2); [exact H | reflexivity].
Defined.

(** * Further properties of the direction over the reals *)

Section DirectionScaling.
Local Open Scope R_scope.
Implicit Types (weights v : list R) (noise : list (list R)).

Lemma l2_norm_scale (c : R) v :
  0 <= c -> l2_norm (map (Rmult c) v) = c * l2_norm v.
Proof.
  intros Hc. unfold l2_norm. rewrite map_map.
  rewrite (map_ext _ (fun a => a * a * (c * c))) by (intros a; ring).
  rewrite sigma_scale, sqrt_mult; [| apply sigma_sq_nonneg | nra].
  rewrite sqrt_square by exact Hc. ring.
Qed.

(** Scaling a non-zero vector by a positive factor does not change its
    direction. *)
Lemma normalise_scale (c : R) v :
  0 < c -> l2_norm v <> 0 ->
  map (fun a => a / l2_norm (map (Rmult c) v)) (map (Rmult c) v)
  = map (fun a => a / l2_norm v) v.
Proof.
  intros Hc Hn. rewrite l2_norm_scale by lra. rewrite map_map.
  apply map_ext. intros a. field. split; lra.
Qed.

Lemma blend_at_cons (w : R) weights (r : list R) noise j :
  blend_at (w :: weights) (r :: noise) j
  = w * nth j r 0 + blend_at weights noise j.
Proof. reflexivity. Qed.

Lemma blend_at_scale (c : R) weights noise j :
  blend_at (map (Rmult c) weights) noise j = c * blend_at weights noise j.
Proof.
  revert noise. induction weights as [|w weights IH]; intros [|r noise];
    try (unfold blend_at, sigma; simpl; lra).
  cbn [map]. rewrite !blend_at_cons, IH. ring.
Qed.

Lemma blend_at_zeros n noise j : blend_at (repeat 0 n) noise j = 0.
Proof.
  revert noise. induction n as [|n IH]; intros [|r noise];
    try (unfold blend_at, sigma; simpl; lra).
  cbn [repeat]. rewrite blend_at_cons, IH. ring.
Qed.

Lemma map_nth_seq (v : list R) :
  map (fun j => nth j v 0) (seq 0 (length v)) = v.
Proof.
  apply (nth_ext _ _ 0 0); [now rewrite length_map, length_seq|].
  intros j Hj. rewrite length_map, length_seq in Hj.
  rewrite (nth_indep _ 0 (nth 0 v 0)) by now rewrite length_map, length_seq.
  rewrite (map_nth (fun j => nth j v 0)), seq_nth by assumption.
  reflexivity.
Qed.

(** The direction in the specification's terms. *)
Lemma normalised_noise_real weights noise :
  length weights = length noise ->
  rectangular noise = true ->
  normalised_noise weights noise
  = Ok (map (fun a => a / l2_norm (map (blend_at weights noise)
                                       (seq 0 (ncols noise))))
            (map (blend_at weights noise) (seq 0 (ncols noise)))).
Proof.
  intros Hlen Hrect.
  destruct (weighted_sum_real weights noise Hlen Hrect) as [ws [Hws [Hl Hn]]].
  assert (Hblend : ws = map (blend_at weights noise) (seq 0 (ncols noise))).
  { apply (nth_ext _ _ 0 0); [now rewrite length_map, length_seq|].
    intros j Hj. rewrite Hn.
    rewrite (nth_indep _ 0 (blend_at weights noise 0))
      by (rewrite length_map, length_seq; lia).
    rewrite (map_nth (blend_at weights noise)), seq_nth by lia.
    reflexivity. }
  unfold normalised_noise. rewrite Hws. cbn [bind].
  now rewrite norm_real, <- Hblend.
Qed.

Lemma blend_norm_nonzero weights noise k :
  (k < ncols noise)%nat ->
  blend_at weights noise k <> 0 ->
  l2_norm (map (blend_at weights noise) (seq 0 (ncols noise))) <> 0.
Proof.
  intros Hk Hnz.
  apply (normalise_unit _ (blend_at weights noise k)); [|exact Hnz].
  apply in_map. apply in_seq. lia.
Qed.
End DirectionScaling.

(** X15.  Over exact arithmetic.  The direction does not depend on how loud
    the frame is: multiplying every weight by the same positive factor gives
    the same direction, as long as the blend is not the zero vector. *)
Theorem normalised_noise_scale_invariant :
  forall (weights : list R) (all_input_noise : list (list R)) (c : R)
         (k : nat),
    (0 < c)%R ->
    length weights = length all_input_noise ->
    rectangular all_input_noise = true ->
    k < ncols all_input_noise ->
    blend_at weights all_input_noise k <> 0%R ->
    normalised_noise (map (Rmult c) weights) all_input_noise
    = normalised_noise weights all_input_noise.
Proof.
  intros weights noise c k Hc Hlen Hrect Hk Hnz.
  rewrite !normalised_noise_real by (rewrite ?length_map; assumption).
  rewrite (map_ext (blend_at (map (Rmult c) weights) noise)
                   (fun j => (c * blend_at weights noise j)%R))
    by (intros j; apply blend_at_scale).
  rewrite <- (map_map (blend_at weights noise) (Rmult c)).
  f_equal. apply normalise_scale; [exact Hc|].
  now apply (blend_norm_nonzero weights noise k).
Qed.

Lemma normalised_noise_scale_invariant_witness :
  ((0 < 5)%R /\
   length [2; 0]%R = length [[3; 4]; [1; 1]]%R /\
   rectangular [[3; 4]; [1; 1]]%R = true /\
   0 < ncols [[3; 4]; [1; 1]]%R /\
   blend_at [2; 0]%R [[3; 4]; [1; 1]]%R 0 <> 0%R) /\
  normalised_noise (map (Rmult 5) [2; 0]%R) [[3; 4]; [1; 1]]%R
  = normalised_noise [2; 0]%R [[3; 4]; [1; 1]]%R.
Proof.
  assert (H : blend_at [2; 0]%R [[3; 4]; [1; 1]]%R 0 <> 0%R).
  { unfold blend_at, sigma. simpl. lra. }
  split.
  - split; [lra | split; [reflexivity | split; [reflexivity |
      split; [simpl; lia | exact H]]]].
  - apply (normalised_noise_scale_invariant [2; 0]%R [[3; 4]; [1; 1]]%R 5 0);
      [lra | reflexivity | reflexivity | simpl; lia | exact H].
Defined.

Lemma blend_at_one_hot (before after : list (list R)) (v : list R) (c : R)
    (j : nat) :
  blend_at (repeat 0%R (length before) ++ c :: repeat 0%R (length after))
           (before ++ v :: after) j
  = (c * nth j v 0)%R.
Proof.
  induction before as [|r before IH]; cbn [length repeat app].
  - rewrite blend_at_cons, blend_at_zeros. ring.
  - rewrite blend_at_cons, IH. ring.
Qed.

(** X16.  Over exact arithmetic.  When a single bin carries energy, the
    direction is the noise vector of that bin's seed, normalised, whatever
    the amount of energy: with a positive weight at one index and zeros
    elsewhere the result is the noise vector at that index divided by its
    Euclidean norm. *)
Theorem normalised_noise_one_hot :
  forall (before after : list (list R)) (v : list R) (c : R),
    (0 < c)%R ->
    rectangular (before ++ v :: after) = true ->
    Exists (fun a => a <> 0%R) v ->
    normalised_noise
      (repeat 0%R (length before) ++ c :: repeat 0%R (length after))
      (before ++ v :: after)
    = Ok (map (fun a => (a / l2_norm v)%R) v).
Proof.
  intros before after v c Hc Hrect Hnz.
  assert (Hlen : length (repeat 0%R (length before)
                         ++ c :: repeat 0%R (length after))
                 = length (before ++ v :: after)).
  { rewrite !length_app. cbn [length]. now rewrite !repeat_length. }
  assert (Hcols : ncols (before ++ v :: after) = length v).
  { pose proof (rectangular_rows _ Hrect) as Hrows.
    rewrite Forall_forall in Hrows. symmetry. apply Hrows.
    apply in_or_app. right. now left. }
  rewrite normalised_noise_real by assumption. rewrite Hcols.
  rewrite (map_ext _ (fun j => (c * nth j v 0)%R))
    by (intros j; apply blend_at_one_hot).
  rewrite <- (map_map (fun j => nth j v 0%R) (Rmult c)), map_nth_seq.
  f_equal. apply normalise_scale; [exact Hc|].
  apply Exists_exists in Hnz as [a [Hin Ha]].
  now apply (normalise_unit v a).
Qed.

Lemma normalised_noise_one_hot_witness :
  ((0 < 7)%R /\
   rectangular ([[1; 1]%R] ++ [3; 4]%R :: [[5; 7]%R]) = true /\
   Exists (fun a => a <> 0%R) [3; 4]%R) /\
  normalised_noise
    (repeat 0%R (length [[1; 1]%R]) ++ 7%R :: repeat 0%R (length [[5; 7]%R]))
    ([[1; 1]%R] ++ [3; 4]%R :: [[5; 7]%R])
  = Ok (map (fun a => (a / l2_norm [3; 4]%R)%R) [3; 4]%R).
Proof.
  assert (H : Exists (fun a => a <> 0%R) [3; 4]%R).
  { apply Exists_cons_hd. lra. }
  split.
  - split; [lra | split; [reflexivity | exact H]].
  - apply (normalised_noise_one_hot [[1; 1]%R] [[5; 7]%R] [3; 4]%R 7);
      [lra | reflexivity | exact H].
Defined.

(** * The seed list *)

Section SeedFacts.
Variable int_strip : String.string -> result Z.

Lemma split_comma_cons (s : String.string) :
  exists field fields, split_comma s = field :: fields.
Proof.
  destruct s as [|c rest]; cbn [split_comma]; [eauto|].
  destruct (Ascii.eqb c comma); [eauto|].
  destruct (split_comma rest); eauto.
Qed.

(** A comma ends a field, wherever it stands. *)
Lemma split_comma_app (a b : String.string) :
  split_comma (String.append a (String.String comma b))
  = split_comma a ++ split_comma b.
Proof.
  induction a as [|c a IH]; cbn [String.append split_comma].
  - now rewrite Ascii.eqb_refl.
  - rewrite IH. destruct (Ascii.eqb c comma); [reflexivity|].
    destruct (split_comma_cons a) as [field [fields ->]]. reflexivity.
Qed.

Lemma int_all_app (l1 l2 : list String.string) :
  int_all int_strip (l1 ++ l2)
  = (x <- int_all int_strip l1 ;; y <- int_all int_strip l2 ;; Ok (x ++ y)).
Proof.
  induction l1 as [|f l1 IH]; cbn [app int_all bind].
  - destruct (int_all int_strip l2); reflexivity.
  - destruct (int_strip f) as [z|e]; cbn [bind]; [|reflexivity].
    rewrite IH. destruct (int_all int_strip l1) as [x|e]; cbn [bind];
      [|reflexivity].
    destruct (int_all int_strip l2); reflexivity.
Qed.

Lemma no_field_only_commas (s : String.string) :
  filter nonempty (split_comma s) = [] <->
  Forall (fun c => c = comma) (String.list_ascii_of_string s).
Proof.
  induction s as [|c rest IH]; cbn [split_comma String.list_ascii_of_string].
  - split; [constructor | reflexivity].
  - destruct (Ascii.eqb_spec c comma) as [->|Hne].
    + cbn [filter nonempty]. rewrite IH. split.
      * intros H. now constructor.
      * intros H. now inversion H.
    + destruct (split_comma_cons rest) as [field [fields ->]].
      cbn [filter nonempty]. split; [discriminate|].
      intros H. inversion H. contradiction.
Qed.

Lemma int_all_nil (fields : list String.string) :
  int_all int_strip fields = Ok [] -> fields = [].
Proof.
  destruct fields as [|f fields]; [reflexivity|]. cbn [int_all].
  destruct (int_strip f); cbn [bind]; [|discriminate].
  destruct (int_all int_strip fields); cbn [bind]; discriminate.
Qed.

(** X17.  The seed list of two lists joined by a comma is the seed list of
    the first followed by that of the second, and an unreadable field of the
    first is reported before one of the second.  So empty fields (a doubled,
    leading or trailing comma) add no seed and shift no bin. *)
Theorem parse_seeds_app :
  forall (a b : String.string),
    parse_seeds int_strip (String.append a (String.String comma b))
    = (x <- parse_seeds int_strip a ;;
       y <- parse_seeds int_strip b ;;
       Ok (x ++ y)).
Proof.
  intros a b. unfold parse_seeds.
  now rewrite split_comma_app, filter_app, int_all_app.
Qed.

(** X18.  No seed is read exactly from the strings made of commas only, the
    empty string among them; every other string gives at least one seed or
    an error.  With no seed there is no bin. *)
Theorem parse_seeds_none :
  forall (s : String.string),
    parse_seeds int_strip s = Ok [] <->
    Forall (fun c => c = comma) (String.list_ascii_of_string s).
Proof.
  intros s. unfold parse_seeds. rewrite <- no_field_only_commas. split.
  - apply int_all_nil.
  - intros ->. reflexivity.
Qed.
End SeedFacts.

(** * Silence and short spectra in binary64 *)

Section SilenceFacts.
Implicit Types (x : float) (weights psd : list float)
  (noise : list (list float)).

Lemma zon_scaled_rows weights noise :
  Forall (fun w => zero_or_nan w = true) weights ->
  Forall (Forall (fun x => zero_or_nan x = true))
    (map (fun p => map (sc_mul (fst p)) (snd p)) (combine weights noise)).
Proof.
  intros Hw. apply Forall_forall. intros r Hr.
  apply in_map_iff in Hr as [[w r0] [<- Hin]]. apply in_combine_l in Hin.
  rewrite Forall_forall in Hw. specialize (Hw w Hin). cbn [fst snd].
  apply Forall_forall. intros x Hx. apply in_map_iff in Hx as [y [<- _]].
  now apply zon_mul_l.
Qed.

(** Weights that are zeros or NaNs give a direction of NaNs. *)
Lemma zon_direction weights noise :
  Forall (fun w => zero_or_nan w = true) weights ->
  length weights = length noise ->
  rectangular noise = true ->
  exists v,
    normalised_noise weights noise = Ok v /\
    length v = ncols noise /\
    Forall (fun x => is_nan x = true) v.
Proof.
  intros Hw Hlen Hrect.
  destruct (normalised_noise_shape weights noise Hlen Hrect)
    as [ws [Hws [Hl Hv]]].
  eexists. split; [exact Hv|]. split; [now rewrite length_map|].
  assert (Hzon : Forall (fun x => zero_or_nan x = true) ws).
  { unfold weighted_sum, weighted_noise in Hws.
    rewrite Hlen, Nat.eqb_refl in Hws. cbn [bind] in Hws.
    injection Hws as <-. unfold np_sum_axis0.
    apply zon_sum_axis0; [now apply zon_scaled_rows | apply zon_repeat]. }
  pose proof (zon_norm ws Hzon) as Hnorm.
  apply Forall_forall. intros x Hx. apply in_map_iff in Hx as [y [<- Hy]].
  rewrite Forall_forall in Hzon.
  apply zon_div_nan; [now apply Hzon | exact Hnorm].
Qed.

Lemma zon_weights psd bin_count :
  Forall (fun x => zero_or_nan x = true) psd ->
  Forall (fun w => zero_or_nan w = true)
    (map np_sum
       (groups_of (length psd / bin_count) bin_count
          (firstn (length psd - length psd mod bin_count) psd))).
Proof.
  intros Hpsd. apply Forall_forall. intros w Hw.
  apply in_map_iff in Hw as [g [<- Hg]].
  unfold np_sum. apply zon_fold_add; [|exact zon_zero].
  apply Forall_forall. intros x Hx.
  unfold groups_of in Hg. apply in_map_iff in Hg as [i [<- _]].
  unfold slice in Hx. apply slice_incl in Hx.
  rewrite Forall_forall in Hpsd. apply Hpsd.
  rewrite <- (firstn_skipn (length psd - length psd mod bin_count) psd).
  apply in_or_app. now left.
Qed.

Lemma aggregate_short psd bin_count :
  length psd < bin_count ->
  aggregate psd bin_count = Ok (repeat 0%float bin_count).
Proof.
  intros Hlt. rewrite aggregate_ok by lia.
  rewrite Nat.mod_small by assumption. rewrite Nat.sub_diag. cbn [firstn].
  f_equal. unfold groups_of.
  rewrite (map_const_seq_list (@nil float)).
  - now rewrite map_repeat.
  - intros i. unfold slice. now rewrite skipn_nil, firstn_nil.
Qed.
End SilenceFacts.

(** X19.  In binary64.  A silent frame stops the picture: a spectrum of
    zeros is aggregated without error, and with one seed per bin the
    direction handed to the network has every component NaN.  Nothing is
    raised on the way. *)
Theorem silence_gives_nan :
  forall (psd : list float) (all_input_noise : list (list float))
         (bin_count : nat),
    Forall (fun x => is_zero x = true) psd ->
    0 < bin_count ->
    length all_input_noise = bin_count ->
    rectangular all_input_noise = true ->
    exists weights v,
      aggregate psd bin_count = Ok weights /\
      normalised_noise weights all_input_noise = Ok v /\
      length v = ncols all_input_noise /\
      Forall (fun x => is_nan x = true) v.
Proof.
  intros psd noise bc Hzero Hpos Hn Hrect.
  assert (Hzon : Forall (fun x => zero_or_nan x = true) psd).
  { apply Forall_forall. intros x Hx. rewrite Forall_forall in Hzero.
    now apply is_zero_zon, Hzero. }
  pose proof (zon_weights psd bc Hzon) as Hw.
  destruct (zon_direction _ noise Hw) as [v [Hv [Hl Hnan]]];
    [rewrite length_map, groups_of_length; now symmetry | exact Hrect |].
  eexists. exists v. split; [now apply aggregate_ok|]. now repeat split.
Qed.

Lemma silence_gives_nan_witness :
  (Forall (fun x => is_zero x = true) [0; 0; 0; 0; 0]%float /\
   0 < 2 /\
   length [[1.5; -0.25]; [0.5; 2]]%float = 2 /\
   rectangular [[1.5; -0.25]; [0.5; 2]]%float = true) /\
  exists weights v,
    aggregate [0; 0; 0; 0; 0]%float 2 = Ok weights /\
    normalised_noise weights [[1.5; -0.25]; [0.5; 2]]%float = Ok v /\
    length v = ncols [[1.5; -0.25]; [0.5; 2]]%float /\
    Forall (fun x => is_nan x = true) v.
Proof.
  assert (H : Forall (fun x => is_zero x = true) [0; 0; 0; 0; 0]%float).
  { repeat constructor. }
  split.
  - split; [exact H | split; [lia | split; reflexivity]].
  - apply (silence_gives_nan [0; 0; 0; 0; 0]%float
             [[1.5; -0.25]; [0.5; 2]]%float 2);
      [exact H | lia | reflexivity | reflexivity].
Defined.

(** X20.  In binary64.  More seeds than spectrum entries blank the output
    whatever is played: a spectrum shorter than the bin count gives the zero
    weight vector, and the direction handed to the network has every
    component NaN. *)
Theorem short_spectrum_gives_nan :
  forall (psd : list float) (all_input_noise : list (list float))
         (bin_count : nat),
    length psd < bin_count ->
    length all_input_noise = bin_count ->
    rectangular all_input_noise = true ->
    aggregate psd bin_count = Ok (repeat 0%float bin_count) /\
    exists v,
      normalised_noise (repeat 0%float bin_count) all_input_noise = Ok v /\
      length v = ncols all_input_noise /\
      Forall (fun x => is_nan x = true) v.
Proof.
  intros psd noise bc Hlt Hn Hrect.
  split; [now apply aggregate_short|].
  apply zon_direction; [apply zon_repeat | | exact Hrect].
  now rewrite repeat_length.
Qed.

Lemma short_spectrum_gives_nan_witness :
  (length [5; 9]%float < 3 /\
   length [[1.5; -0.25]; [0.5; 2]; [-1; 3]]%float = 3 /\
   rectangular [[1.5; -0.25]; [0.5; 2]; [-1; 3]]%float = true) /\
  aggregate [5; 9]%float 3 = Ok (repeat 0%float 3) /\
  exists v,
    normalised_noise (repeat 0%float 3)
      [[1.5; -0.25]; [0.5; 2]; [-1; 3]]%float = Ok v /\
    length v = ncols [[1.5; -0.25]; [0.5; 2]; [-1; 3]]%float /\
    Forall (fun x => is_nan x = true) v.
Proof.
  split.
  - split; [simpl; lia | split; reflexivity].
  - apply (short_spectrum_gives_nan [5; 9]%float
             [[1.5; -0.25]; [0.5; 2]; [-1; 3]]%float 3);
      [simpl; lia | reflexivity | reflexivity].
Defined.
